(** * A shallow embedding of [pygraph.Graph]

    The Python class [Graph] keeps an adjacency dictionary
    [adjacency_list : Dict[Node, List[Node]]] and a flag [directed].
    Its methods mutate the object and may raise; they are embedded here in a
    state-and-exception monad over the record [Graph].

    The dictionary is a [gmap] from nodes to lists. Python walks a
    dictionary in insertion order and [map_to_list] in an order of its own;
    the methods modelled here do not depend on it: the loop of [remove_node]
    treats every item on its own, [indegree] counts, and [__str__] sorts.
    The neighbour sequences are Python lists, whose order matters, and are
    kept as lists. *)

From Stdlib Require Import ZArith String Ascii DecimalString.
From stdpp Require Import gmap strings list fin_maps sorting.

Local Open Scope Z_scope.
Local Open Scope nat_scope.

(** ** Nodes: [Node = Union[str, int]] *)

Inductive Node : Type :=
  | NStr (s : string)
  | NInt (z : Z).

Definition Edge : Type := Node * Node.

#[global] Instance Node_eq_dec : EqDecision Node.
Proof. solve_decision. Defined.

Definition Node_to_sum (n : Node) : string + Z :=
  match n with NStr s => inl s | NInt z => inr z end.

Definition Node_of_sum (x : string + Z) : Node :=
  match x with inl s => NStr s | inr z => NInt z end.

#[global] Instance Node_countable : Countable Node.
Proof.
  refine (inj_countable' Node_to_sum Node_of_sum _).
  intros []; reflexivity.
Defined.

(** ** The object state *)

Record Graph : Type := mkGraph {
  adjacency_list : gmap Node (list Node);
  directed : bool
}.

(** ** Exceptions and the method monad *)

Inductive exn : Type :=
  | ValueError_node (n : Node)        (* "Node {node} not in graph" *)
  | ValueError_edge (e : Edge)        (* "Edge {edge} not in graph" *)
  | ValueError_start_end              (* "Start or end node not in graph" *)
  | ValueError_remove                 (* list.remove(x): x not in list *)
  | KeyError (n : Node)               (* d[k] or del d[k] on a missing key *)
  | TypeError.                        (* '<' between str and int *)

Inductive outcome (A : Type) : Type :=
  | Returned (a : A)
  | Raised (e : exn)
  | OutOfFuel.
Arguments Returned {A} a.
Arguments Raised {A} e.
Arguments OutOfFuel {A}.

(** A method call takes the object to an outcome and the object as it is
    left, also when the call raises. *)
Definition M (A : Type) : Type := Graph -> outcome A * Graph.

Definition ret {A} (a : A) : M A := fun g => (Returned a, g).
Definition raise {A} (e : exn) : M A := fun g => (Raised e, g).
Definition bind {A B} (m : M A) (k : A -> M B) : M B :=
  fun g =>
    match m g with
    | (Returned a, g') => k a g'
    | (Raised e, g') => (Raised e, g')
    | (OutOfFuel, g') => (OutOfFuel, g')
    end.

Declare Scope py_scope.
Delimit Scope py_scope with py.
Notation "'let*' x ':=' m 'in' k" := (bind m (fun x => k))
  (at level 10, x name, m at level 100, k at level 200) : py_scope.
Notation "m ';;' k" := (bind m (fun _ => k))
  (at level 100, k at level 200, right associativity) : py_scope.
Local Open Scope py_scope.

Definition result {A} (r : outcome A * Graph) : outcome A := fst r.
Definition state_after {A} (r : outcome A * Graph) : Graph := snd r.

(** [self.adjacency_list] and [self.directed] *)
Definition get_adjacency : M (gmap Node (list Node)) :=
  fun g => (Returned (adjacency_list g), g).
Definition get_directed : M bool :=
  fun g => (Returned (directed g), g).
Definition set_adjacency (adj : gmap Node (list Node)) : M unit :=
  fun g => (Returned tt, mkGraph adj (directed g)).

(** [self.adjacency_list[k]] *)
Definition getitem (k : Node) : M (list Node) :=
  let* adj := get_adjacency in
  match adj !! k with
  | Some l => ret l
  | None => raise (KeyError k)
  end.

(** [self.adjacency_list[k] = l]; also the in-place update of the list
    stored under [k] (every list of the dictionary is created by [add_node]
    and is stored under one key only). *)
Definition setitem (k : Node) (l : list Node) : M unit :=
  let* adj := get_adjacency in
  set_adjacency (<[k := l]> adj).

(** [del self.adjacency_list[k]] *)
Definition delitem (k : Node) : M unit :=
  let* adj := get_adjacency in
  match adj !! k with
  | Some _ => set_adjacency (delete k adj)
  | None => raise (KeyError k)
  end.

(** [k in self.adjacency_list] *)
Definition contains (k : Node) : M bool :=
  let* adj := get_adjacency in
  ret (bool_decide (is_Some (adj !! k))).

(** [x in l] on a list *)
Definition list_in (x : Node) (l : list Node) : bool := bool_decide (x ∈ l).

(** [l.remove(x)]: drops the first occurrence, [ValueError] when there is
    none. *)
Fixpoint list_remove (x : Node) (l : list Node) : option (list Node) :=
  match l with
  | [] => None
  | y :: l' =>
      if decide (y = x) then Some l'
      else cons y <$> list_remove x l'
  end.

Definition lift_remove (x : Node) (l : list Node) : M (list Node) :=
  match list_remove x l with
  | Some l' => ret l'
  | None => raise ValueError_remove
  end.

Fixpoint for_each {A} (l : list A) (body : A -> M unit) : M unit :=
  match l with
  | [] => ret tt
  | a :: l' => body a ;; for_each l' body
  end.

(** ** Queries and mutations *)

Definition has_node (node : Node) : M bool := contains node.

Definition has_edge (edge : Edge) : M bool :=
  let '(node1, node2) := edge in
  let* b1 := contains node1 in
  if negb b1 then ret false else
  let* b2 := contains node2 in
  if negb b2 then ret false else
  let* l := getitem node1 in
  ret (list_in node2 l).

Definition add_node (node : Node) : M unit :=
  let* b := contains node in
  if negb b then setitem node [] else ret tt.

Definition add_edge (edge : Edge) : M unit :=
  let '(node1, node2) := edge in
  add_node node1 ;;
  add_node node2 ;;
  let* l1 := getitem node1 in
  (if negb (list_in node2 l1) then setitem node1 (l1 ++ [node2]) else ret tt) ;;
  let* d := get_directed in
  if negb d then
    let* l2 := getitem node2 in
    if negb (list_in node1 l2) then setitem node2 (l2 ++ [node1]) else ret tt
  else ret tt.

Definition __init__ (edges : list Edge) (directed : bool) : Graph :=
  state_after (for_each edges add_edge (mkGraph ∅ directed)).

(** The loop of [remove_node] visits every item of the dictionary once and
    touches only the list of the item at hand. *)
Definition remove_node (node : Node) : M unit :=
  let* b := contains node in
  if negb b then raise (ValueError_node node) else
  let* adj := get_adjacency in
  for_each (map_to_list adj) (fun '(k, neighbors) =>
    if list_in node neighbors then
      let* neighbors' := lift_remove node neighbors in
      setitem k neighbors'
    else ret tt) ;;
  delitem node.

(** The three tests of the guard are joined by [or]: the third one, which
    reads [self.adjacency_list[node1]], is reached only when [node1] is a
    key. *)
Definition remove_edge (edge : Edge) : M unit :=
  let '(node1, node2) := edge in
  let* adj := get_adjacency in
  if negb (bool_decide (is_Some (adj !! node1)))
     || negb (bool_decide (is_Some (adj !! node2)))
     || negb (list_in node2 (default [] (adj !! node1)))
  then raise (ValueError_edge edge) else
  let* l1 := getitem node1 in
  let* l1' := lift_remove node2 l1 in
  setitem node1 l1' ;;
  let* d := get_directed in
  if negb d then
    let* l2 := getitem node2 in
    if list_in node1 l2 then
      let* l2' := lift_remove node1 l2 in
      setitem node2 l2'
    else ret tt
  else ret tt.

Definition indegree (node : Node) : M nat :=
  let* b := contains node in
  if negb b then raise (ValueError_node node) else
  let* adj := get_adjacency in
  ret (foldl (fun count '(_, neighbors) =>
                if list_in node neighbors then count + 1 else count)
             0 (map_to_list adj)).

Definition outdegree (node : Node) : M nat :=
  let* b := contains node in
  if negb b then raise (ValueError_node node) else
  let* l := getitem node in
  ret (length l).

(** [self.adjacency_list.get(node, [])] *)
Definition adj_get (adj : gmap Node (list Node)) (node : Node) : list Node :=
  default [] (adj !! node).

Definition get_neighbors (node : Node) : M (list Node) :=
  let* b := contains node in
  if negb b then raise (ValueError_node node) else
  let* adj := get_adjacency in
  ret (adj_get adj node).

(** ** Traversals

    The [while] loops take a fuel argument; the methods supply
    [traversal_fuel], which is shown below to be always enough. *)

(** [stack.pop()] on a non-empty list: the last element and the rest. *)
Definition list_pop {A} (l : list A) : option (A * list A) :=
  match rev l with
  | [] => None
  | x :: r => Some (x, rev r)
  end.

Fixpoint dfs_loop (adj : gmap Node (list Node)) (fuel : nat)
    (visited stack : list Node) : option (list Node) :=
  match fuel with
  | 0 => None
  | S fuel' =>
      match list_pop stack with
      | None => Some visited
      | Some (current, stack) =>
          if negb (list_in current visited) then
            let visited := visited ++ [current] in
            let stack :=
              foldl (fun stack neighbor =>
                       if negb (list_in neighbor visited)
                       then stack ++ [neighbor] else stack)
                    stack (rev (adj_get adj current)) in
            dfs_loop adj fuel' visited stack
          else dfs_loop adj fuel' visited stack
      end
  end.

Fixpoint bfs_loop (adj : gmap Node (list Node)) (fuel : nat)
    (visited queue : list Node) : option (list Node) :=
  match fuel with
  | 0 => None
  | S fuel' =>
      match queue with
      | [] => Some visited
      | current :: queue =>
          if negb (list_in current visited) then
            let visited := visited ++ [current] in
            let queue :=
              foldl (fun queue neighbor =>
                       if negb (list_in neighbor visited)
                       then queue ++ [neighbor] else queue)
                    queue (adj_get adj current) in
            bfs_loop adj fuel' visited queue
          else bfs_loop adj fuel' visited queue
      end
  end.

(** The body of the [for] loop of [find_shortest_path], on the pair of the
    queue and the visited set. *)
Definition fsp_visit (path : list Node)
    (qv : list (Node * list Node) * gset Node) (neighbor : Node)
    : list (Node * list Node) * gset Node :=
  if decide (neighbor ∈ qv.2) then qv
  else (qv.1 ++ [(neighbor, path ++ [neighbor])], {[neighbor]} ∪ qv.2).

Fixpoint fsp_loop (adj : gmap Node (list Node)) (end_ : Node) (fuel : nat)
    (queue : list (Node * list Node)) (visited : gset Node)
    : option (option (list Node)) :=
  match fuel with
  | 0 => None
  | S fuel' =>
      match queue with
      | [] => Some None
      | (current, path) :: queue =>
          if decide (current = end_) then Some (Some path)
          else
            let qv := foldl (fsp_visit path) (queue, visited)
                            (adj_get adj current) in
            fsp_loop adj end_ fuel' qv.1 qv.2
      end
  end.

(** Two more than the number of neighbour entries of the dictionary. *)
Definition traversal_fuel (adj : gmap Node (list Node)) : nat :=
  S (S (length (concat (map_to_list adj).*2))).

Definition run_loop {A} (r : option A) : M A :=
  match r with
  | Some a => ret a
  | None => fun g => (OutOfFuel, g)
  end.

Definition depth_first_search (start : Node) : M (list Node) :=
  let* b := contains start in
  if negb b then raise (ValueError_node start) else
  let* adj := get_adjacency in
  run_loop (dfs_loop adj (traversal_fuel adj) [] [start]).

Definition breadth_first_search (start : Node) : M (list Node) :=
  let* b := contains start in
  if negb b then raise (ValueError_node start) else
  let* adj := get_adjacency in
  run_loop (bfs_loop adj (traversal_fuel adj) [] [start]).

Definition find_shortest_path (start end_ : Node) : M (option (list Node)) :=
  let* b1 := contains start in
  let* b2 := contains end_ in
  if negb b1 || negb b2 then raise ValueError_start_end else
  let* adj := get_adjacency in
  run_loop (fsp_loop adj end_ (traversal_fuel adj) [(start, [start])] {[start]}).

(** ** The textual representation *)

(** [str(node)] *)
Definition py_str (node : Node) : string :=
  match node with
  | NStr s => s
  | NInt z => NilZero.string_of_int (Z.to_int z)
  end.

(** [sep.join(parts)] *)
Fixpoint join (sep : string) (parts : list string) : string :=
  match parts with
  | [] => EmptyString
  | [s] => s
  | s :: rest => String.append s (String.append sep (join sep rest))
  end.

(** [a < b] on nodes: integers by value, strings by code point, and a
    [TypeError] ([None]) between a string and an integer. *)
Definition node_lt (a b : Node) : option bool :=
  match a, b with
  | NInt x, NInt y => Some (Z.ltb x y)
  | NStr x, NStr y => Some (String.ltb x y)
  | _, _ => None
  end.

(** [a < b] on lists: the first position where they differ decides. *)
Fixpoint list_lt (a b : list Node) : option bool :=
  match a, b with
  | [], [] => Some false
  | [], _ :: _ => Some true
  | _ :: _, [] => Some false
  | x :: a', y :: b' =>
      if decide (x = y) then list_lt a' b' else node_lt x y
  end.

(** [a < b] on the items [(node, neighbors)] of the dictionary. *)
Definition item_lt (a b : Node * list Node) : option bool :=
  if decide (a.1 = b.1) then list_lt a.2 b.2 else node_lt a.1 b.1.

(** [sorted(items)]: a stable sort that only asks [<]; it raises as soon as
    one comparison does. Items of a dictionary have distinct keys, so that
    the order in which the sort compares them changes neither the sorted
    list nor whether a comparison between a string and an integer occurs. *)
Fixpoint sorted_insert (x : Node * list Node) (l : list (Node * list Node))
    : option (list (Node * list Node)) :=
  match l with
  | [] => Some [x]
  | y :: l' =>
      match item_lt x y with
      | None => None
      | Some true => Some (x :: y :: l')
      | Some false => cons y <$> sorted_insert x l'
      end
  end.

Definition sorted (items : list (Node * list Node))
    : option (list (Node * list Node)) :=
  foldl (fun acc x => acc ≫= sorted_insert x) (Some []) items.

Definition render_line (item : Node * list Node) : string :=
  String.append (py_str item.1)
    (String.append ": " (join ", " (py_str <$> item.2))).

Definition __str__ : M string :=
  let* adj := get_adjacency in
  match sorted (map_to_list adj) with
  | None => raise TypeError
  | Some items => ret (join (String (ascii_of_nat 10) EmptyString)
                            (render_line <$> items))
  end.

(** ** Graphs a program can build *)

Inductive mutation : Type :=
  | AddNode (node : Node)
  | AddEdge (edge : Edge)
  | RemoveNode (node : Node)
  | RemoveEdge (edge : Edge).

Definition mutate (m : mutation) : M unit :=
  match m with
  | AddNode node => add_node node
  | AddEdge edge => add_edge edge
  | RemoveNode node => remove_node node
  | RemoveEdge edge => remove_edge edge
  end.

(** [reachable d g]: [g] is the state of an object built by
    [Graph(edges, directed=d)] after any number of calls of the four
    mutating methods (a call that raises included). *)
Inductive reachable (d : bool) : Graph -> Prop :=
  | reachable_init edges : reachable d (__init__ edges d)
  | reachable_mutate g m :
      reachable d g -> reachable d (state_after (mutate m g)).

(** ** What the mutations do to the dictionary *)

Definition add_node_adj (node : Node) (adj : gmap Node (list Node))
    : gmap Node (list Node) :=
  match adj !! node with
  | Some _ => adj
  | None => <[node := []]> adj
  end.

Definition add_arc (a b : Node) (adj : gmap Node (list Node))
    : gmap Node (list Node) :=
  match adj !! a with
  | Some l => if list_in b l then adj else <[a := l ++ [b]]> adj
  | None => adj
  end.

Definition add_edge_adj (d : bool) (a b : Node) (adj : gmap Node (list Node))
    : gmap Node (list Node) :=
  let adj := add_arc a b (add_node_adj b (add_node_adj a adj)) in
  if d then adj else add_arc b a adj.

Definition drop_first (x : Node) (l : list Node) : list Node :=
  default l (list_remove x l).

Definition remove_node_adj (node : Node) (adj : gmap Node (list Node))
    : gmap Node (list Node) :=
  delete node (drop_first node <$> adj).

Definition remove_arc (a b : Node) (adj : gmap Node (list Node))
    : gmap Node (list Node) :=
  match adj !! a with
  | Some l => if list_in b l then <[a := drop_first b l]> adj else adj
  | None => adj
  end.

Definition remove_edge_adj (d : bool) (a b : Node)
    (adj : gmap Node (list Node)) : gmap Node (list Node) :=
  let adj := remove_arc a b adj in
  if d then adj else remove_arc b a adj.

Definition edge_present (a b : Node) (adj : gmap Node (list Node)) : bool :=
  bool_decide (is_Some (adj !! a)) && bool_decide (is_Some (adj !! b))
  && list_in b (adj_get adj a).

(** * Definitions used by the statements and the proofs *)

(** The [for] loop of [remove_node], as a fold over the items. *)
Definition remove_node_step (node : Node)
    (m : gmap Node (list Node)) (item : Node * list Node)
    : gmap Node (list Node) :=
  if list_in node item.2 then <[item.1 := drop_first node item.2]> m else m.

(** No neighbour sequence repeats a node, and every neighbour is a key. *)
Record adj_ok (adj : gmap Node (list Node)) : Prop := {
  adj_nodup : forall k, NoDup (adj_get adj k);
  adj_closed : forall k x, x ∈ adj_get adj k -> is_Some (adj !! x)
}.

Definition adj_sym (adj : gmap Node (list Node)) : Prop :=
  forall a b, b ∈ adj_get adj a -> a ∈ adj_get adj b.

(** What a mutation leaves behind, raising or not. *)
Definition mutate_adj (d : bool) (m : mutation) (adj : gmap Node (list Node))
    : gmap Node (list Node) :=
  match m with
  | AddNode node => add_node_adj node adj
  | AddEdge (a, b) => add_edge_adj d a b adj
  | RemoveNode node =>
      if bool_decide (is_Some (adj !! node)) then remove_node_adj node adj
      else adj
  | RemoveEdge (a, b) =>
      if edge_present a b adj then remove_edge_adj d a b adj else adj
  end.

Record graph_inv (d : bool) (g : Graph) : Prop := {
  inv_directed : directed g = d;
  inv_ok : adj_ok (adjacency_list g);
  inv_sym : d = false -> adj_sym (adjacency_list g)
}.

Definition count_in (node : Node) (items : list (Node * list Node)) : nat :=
  foldl (fun count '(_, neighbors) =>
           if list_in node neighbors then count + 1 else count) 0 items.

(** The neighbour entries stored under keys that are not yet visited. *)
Definition unvisited_weight (adj : gmap Node (list Node)) (visited : list Node)
    : nat :=
  sum_list ((fun kv : Node * list Node =>
               if list_in kv.1 visited then 0 else length kv.2)
            <$> map_to_list adj).

(** Every node of [p] but the first is in the neighbour sequence of the node
    before it. *)
Fixpoint is_path (adj : gmap Node (list Node)) (p : list Node) : bool :=
  match p with
  | a :: ((b :: _) as p') => list_in b (adj_get adj a) && is_path adj p'
  | _ => true
  end.

Definition path_from_to (adj : gmap Node (list Node)) (a b : Node)
    (p : list Node) : Prop :=
  head p = Some a /\ last p = Some b /\ is_path adj p = true.

(** The number of edges along a path. *)
Definition edge_count (p : list Node) : nat := pred (length p).

(** Paths from [start], grown at their end as the search grows them. *)
Inductive walk (adj : gmap Node (list Node)) (start : Node)
    : Node -> list Node -> Prop :=
  | walk_start : walk adj start start [start]
  | walk_step v p w :
      walk adj start v p -> w ∈ adj_get adj v -> walk adj start w (p ++ [w]).

(** Every node that occurs in a neighbour sequence. *)
Definition universe (adj : gmap Node (list Node)) : gset Node :=
  list_to_set (concat (map_to_list adj).*2).

(** The state of the [while] loop of [find_shortest_path] at its head:
    queued paths are shortest paths from [start], in two consecutive lengths
    and in that order; a visited node that is not queued has been taken from
    the queue, is not [end_], and has all its neighbours visited. *)
Record fsp_inv (adj : gmap Node (list Node)) (start end_ : Node)
    (queue : list (Node * list Node)) (visited : gset Node) : Prop := {
  fsp_start : start ∈ visited;
  fsp_walks : forall v p, (v, p) ∈ queue -> walk adj start v p /\ v ∈ visited;
  fsp_minimal : forall v p q,
    (v, p) ∈ queue -> walk adj start v q -> length p <= length q;
  fsp_closed : forall y,
    y ∈ visited -> y ∉ queue.*1 ->
    y ≠ end_ /\ forall w, w ∈ adj_get adj y -> w ∈ visited;
  fsp_levels : exists d A B,
    queue = A ++ B /\
    Forall (fun e => length e.2 = d) A /\
    Forall (fun e => length e.2 = S d) B
}.

(** [m] leaves the object as it found it whenever it raises. *)
Definition raises_atomically {A} (m : M A) : Prop :=
  forall (g : Graph) (e : exn), result (m g) = Raised e -> state_after (m g) = g.

(** [m] leaves the object as it found it. *)
Definition preserves_state {A} (m : M A) : Prop :=
  forall g : Graph, state_after (m g) = g.

(** [m] ends: the fuel of its loop never runs out. *)
Definition terminates {A} (m : M A) : Prop :=
  forall g : Graph, result (m g) <> OutOfFuel.

(** Two nodes that [<] can compare: both integers or both strings. *)
Definition same_kind (a b : Node) : bool :=
  match a, b with
  | NInt _, NInt _ | NStr _, NStr _ => true
  | _, _ => false
  end.

(** The state of the [while] loop of a traversal at its head, with [work]
    the stack or the queue: visited nodes are distinct and, like the nodes
    of [work], can be reached from [start]; every neighbour of a visited
    node is visited or waits in [work]; and [start] is the first node
    visited. *)
Record traversal_inv (adj : gmap Node (list Node)) (start : Node)
    (visited work : list Node) : Prop := {
  tr_nodup : NoDup visited;
  tr_reach : forall v, v ∈ visited \/ v ∈ work -> exists p, walk adj start v p;
  tr_closed : forall v w,
    v ∈ visited -> w ∈ adj_get adj v -> w ∈ visited \/ w ∈ work;
  tr_start : start ∈ visited \/ start ∈ work;
  tr_first : (visited = [] /\ work = [start]) \/ head visited = Some start
}.

(** [l.append(x)] guarded by [x not in l], as [add_edge] does it. *)
Definition append_new (l : list Node) (x : Node) : list Node :=
  if list_in x l then l else l ++ [x].

(** What one call [add_edge(edge)] offers to the neighbour sequence of [a],
    in the order of the two guarded appends. *)
Definition edge_neighbors (d : bool) (a : Node) (edge : Edge) : list Node :=
  (if bool_decide (edge.1 = a) then [edge.2] else [])
  ++ (if negb d && bool_decide (edge.2 = a) then [edge.1] else []).

(** The item [x] comes before the item [y] in the order [sorted] uses:
    its key is the smaller one. *)
Definition item_before (x y : Node * list Node) : Prop :=
  node_lt x.1 y.1 = Some true.

(** The loop of [breadth_first_search] followed with a label on every node
    of the queue and of the result: the number of nodes of a path from the
    start along which the node entered the queue. The labels are not in the
    program; erasing them gives [bfs_loop] (lemma [bfs_levels_erase]). *)
Fixpoint bfs_levels (adj : gmap Node (list Node)) (fuel : nat)
    (visited queue : list (Node * nat)) : option (list (Node * nat)) :=
  match fuel with
  | 0 => None
  | S fuel' =>
      match queue with
      | [] => Some visited
      | (current, n) :: queue =>
          if negb (list_in current visited.*1) then
            let visited := visited ++ [(current, n)] in
            let queue :=
              queue ++ ((fun w => (w, S n))
                        <$> filter (fun w => w ∉ visited.*1)
                                   (adj_get adj current)) in
            bfs_levels adj fuel' visited queue
          else bfs_levels adj fuel' visited queue
      end
  end.

(** The state of the labelled loop at its head: the label of a visited node
    is the length of a shortest path to it, the labels of the queue are
    lengths of paths, in two consecutive values and in that order, and no
    visited label exceeds them; a neighbour of a visited node is visited or
    queued with a label at most one more. *)
Record bfs_inv (adj : gmap Node (list Node)) (start : Node)
    (visited queue : list (Node * nat)) : Prop := {
  bfs_exact : forall v n, (v, n) ∈ visited ->
    (exists p, walk adj start v p /\ length p = n) /\
    (forall q, walk adj start v q -> n <= length q);
  bfs_queued : forall w n, (w, n) ∈ queue ->
    exists p, walk adj start w p /\ length p = n;
  bfs_closed : forall y n w, (y, n) ∈ visited -> w ∈ adj_get adj y ->
    w ∈ visited.*1 \/ exists m, (w, m) ∈ queue /\ m <= S n;
  bfs_start : start ∈ visited.*1 \/ (start, 1) ∈ queue;
  bfs_levels_of : exists d A B,
    queue = A ++ B /\
    Forall (fun e => e.2 = d) A /\
    Forall (fun e => e.2 = S d) B /\
    Forall (fun e => e.2 <= d) visited;
  bfs_sorted : forall i j a b,
    visited !! i = Some a -> visited !! j = Some b -> i <= j -> a.2 <= b.2
}.

(** * Lemmas *)

Section list_remove.
Implicit Types (x y : Node) (l : list Node).

Lemma list_remove_Some x l : x ∈ l -> is_Some (list_remove x l).
Proof.
  induction l as [|y l IH]; intros Hx; [by apply elem_of_nil in Hx|].
  simpl. destruct (decide (y = x)) as [-> | Hne]; [by eexists|].
  apply elem_of_cons in Hx as [-> | Hx]; [done|].
  destruct (IH Hx) as [l' ->]. by eexists.
Qed.

Lemma list_remove_None x l : x ∉ l -> list_remove x l = None.
Proof.
  induction l as [|y l IH]; intros Hx; [done|].
  simpl. apply not_elem_of_cons in Hx as [Hne Hx].
  destruct (decide (y = x)) as [->|_]; [done|]. by rewrite IH.
Qed.

Lemma drop_first_absent x l : x ∉ l -> drop_first x l = l.
Proof. intros Hx. unfold drop_first. by rewrite list_remove_None. Qed.

Lemma drop_first_cons x y l :
  drop_first x (y :: l) = if decide (y = x) then l else y :: drop_first x l.
Proof.
  unfold drop_first. simpl. destruct (decide (y = x)); [done|].
  by destruct (list_remove x l).
Qed.

Lemma elem_of_drop_first_ne x y l : y ≠ x -> y ∈ drop_first x l <-> y ∈ l.
Proof.
  intros Hne. induction l as [|z l IH]; [done|].
  rewrite drop_first_cons. destruct (decide (z = x)) as [->|_].
  - rewrite elem_of_cons. split; [by right|]. by intros [? | ?].
  - rewrite !elem_of_cons, IH. done.
Qed.

Lemma elem_of_drop_first x y l : y ∈ drop_first x l -> y ∈ l.
Proof.
  induction l as [|z l IH]; [done|].
  rewrite drop_first_cons. destruct (decide (z = x)) as [->|_].
  - intros Hin. apply elem_of_cons. by right.
  - rewrite !elem_of_cons. intros [? | ?]; [by left|]. right. by apply IH.
Qed.

Lemma NoDup_drop_first x l : NoDup l -> NoDup (drop_first x l).
Proof.
  induction 1 as [|z l Hz Hl IH]; [constructor|].
  rewrite drop_first_cons. destruct (decide (z = x)); [done|].
  constructor; [|done]. intros Hin. by apply elem_of_drop_first in Hin.
Qed.

Lemma not_elem_of_drop_first x l : NoDup l -> x ∉ drop_first x l.
Proof.
  induction 1 as [|z l Hz Hl IH]; [apply not_elem_of_nil|].
  rewrite drop_first_cons. destruct (decide (z = x)) as [-> | Hne]; [done|].
  apply not_elem_of_cons. done.
Qed.
End list_remove.

Lemma list_in_true x l : list_in x l = true <-> x ∈ l.
Proof. unfold list_in. apply bool_decide_eq_true. Qed.

Lemma list_in_false x l : list_in x l = false <-> x ∉ l.
Proof. unfold list_in. apply bool_decide_eq_false. Qed.

Lemma add_node_spec node adj d :
  add_node node (mkGraph adj d) = (Returned tt, mkGraph (add_node_adj node adj) d).
Proof.
  unfold add_node, add_node_adj, contains, setitem, bind, get_adjacency,
    set_adjacency, ret. simpl.
  destruct (adj !! node) as [l|] eqn:E.
  - by rewrite bool_decide_true by eauto.
  - rewrite bool_decide_false; [done|]. by intros [? ?].
Qed.

Lemma getitem_spec k adj d l :
  adj !! k = Some l -> getitem k (mkGraph adj d) = (Returned l, mkGraph adj d).
Proof. intros E. unfold getitem, bind, get_adjacency, ret. simpl. by rewrite E. Qed.

Lemma add_node_adj_lookup_eq node adj :
  is_Some (add_node_adj node adj !! node).
Proof.
  unfold add_node_adj. destruct (adj !! node) eqn:E; [by rewrite E|].
  rewrite lookup_insert_eq. by eexists.
Qed.

Lemma add_node_adj_is_Some node k adj :
  is_Some (adj !! k) -> is_Some (add_node_adj node adj !! k).
Proof.
  unfold add_node_adj. destruct (adj !! node) eqn:E; [done|].
  intros Hk. destruct (decide (node = k)) as [-> | Hne].
  - rewrite lookup_insert_eq. by eexists.
  - by rewrite lookup_insert_ne.
Qed.

Lemma add_arc_is_Some a b k adj :
  is_Some (adj !! k) -> is_Some (add_arc a b adj !! k).
Proof.
  unfold add_arc. destruct (adj !! a) eqn:E; [|done].
  destruct (list_in b l); [done|].
  intros Hk. destruct (decide (a = k)) as [-> | Hne].
  - rewrite lookup_insert_eq. by eexists.
  - by rewrite lookup_insert_ne.
Qed.

Lemma add_arc_step a b adj d :
  is_Some (adj !! a) ->
  (let* l1 := getitem a in
   if negb (list_in b l1) then setitem a (l1 ++ [b]) else ret tt)
    (mkGraph adj d)
  = (Returned tt, mkGraph (add_arc a b adj) d).
Proof.
  intros [l E]. unfold bind at 1. rewrite (getitem_spec _ _ _ _ E).
  unfold add_arc. rewrite E. by destruct (list_in b l).
Qed.

Lemma add_edge_spec a b adj d :
  add_edge (a, b) (mkGraph adj d)
  = (Returned tt, mkGraph (add_edge_adj d a b adj) d).
Proof.
  unfold add_edge, add_edge_adj.
  unfold bind at 1. rewrite add_node_spec.
  unfold bind at 1. rewrite add_node_spec.
  set (adj2 := add_node_adj b (add_node_adj a adj)).
  assert (Ha : is_Some (adj2 !! a)).
  { apply add_node_adj_is_Some, add_node_adj_lookup_eq. }
  assert (Hb : is_Some (adj2 !! b)) by apply add_node_adj_lookup_eq.
  destruct Ha as [l1 E1].
  unfold bind at 1. rewrite (getitem_spec _ _ _ _ E1).
  unfold bind at 1.
  pose proof (add_arc_step a b adj2 d (ex_intro _ l1 E1)) as Hstep.
  unfold bind at 1 in Hstep. rewrite (getitem_spec _ _ _ _ E1) in Hstep.
  rewrite Hstep.
  unfold bind at 1, get_directed. simpl.
  destruct d; simpl; [done|].
  apply add_arc_step. by apply add_arc_is_Some.
Qed.

Lemma remove_node_body_spec node k neighbors adj d :
  (if list_in node neighbors then
     let* neighbors' := lift_remove node neighbors in
     setitem k neighbors'
   else ret tt) (mkGraph adj d)
  = (Returned tt, mkGraph (remove_node_step node adj (k, neighbors)) d).
Proof.
  unfold remove_node_step. simpl.
  destruct (list_in node neighbors) eqn:E; [|done].
  apply list_in_true, list_remove_Some in E as [l' E].
  unfold bind, lift_remove, drop_first. by rewrite E.
Qed.

Lemma remove_node_loop_spec node items adj d :
  for_each items (fun '(k, neighbors) =>
    if list_in node neighbors then
      let* neighbors' := lift_remove node neighbors in
      setitem k neighbors'
    else ret tt) (mkGraph adj d)
  = (Returned tt, mkGraph (foldl (remove_node_step node) adj items) d).
Proof.
  revert adj. induction items as [|[k neighbors] items IH]; intros adj; [done|].
  simpl. unfold bind at 1. rewrite remove_node_body_spec. apply IH.
Qed.

Lemma remove_node_fold_lookup node items (m : gmap Node (list Node)) k :
  NoDup items.*1 ->
  foldl (remove_node_step node) m items !! k
  = match (list_to_map items : gmap Node (list Node)) !! k with
    | Some v => if list_in node v then Some (drop_first node v) else m !! k
    | None => m !! k
    end.
Proof.
  revert m. induction items as [|[k0 v0] items IH]; intros m Hnd.
  { simpl. by rewrite lookup_empty. }
  rewrite fmap_cons in Hnd. apply NoDup_cons in Hnd as [Hk0 Hnd].
  simpl. rewrite IH by done.
  destruct (decide (k0 = k)) as [-> | Hne].
  - rewrite lookup_insert_eq.
    rewrite (not_elem_of_list_to_map_1 items k) by done.
    unfold remove_node_step. simpl.
    destruct (list_in node v0); [by rewrite lookup_insert_eq|done].
  - rewrite lookup_insert_ne by done.
    assert (remove_node_step node m (k0, v0) !! k = m !! k) as ->; [|done].
    unfold remove_node_step. simpl.
    destruct (list_in node v0); [by rewrite lookup_insert_ne|done].
Qed.

Lemma remove_node_fold node (adj : gmap Node (list Node)) :
  foldl (remove_node_step node) adj (map_to_list adj) = drop_first node <$> adj.
Proof.
  apply map_eq. intros k.
  rewrite remove_node_fold_lookup by apply NoDup_fst_map_to_list.
  rewrite list_to_map_to_list, lookup_fmap.
  destruct (adj !! k) as [v|] eqn:E; [|done]. simpl.
  destruct (list_in node v) eqn:Hin; [done|].
  apply list_in_false in Hin. by rewrite drop_first_absent.
Qed.

Lemma contains_spec k adj d :
  contains k (mkGraph adj d)
  = (Returned (bool_decide (is_Some (adj !! k))), mkGraph adj d).
Proof. reflexivity. Qed.

Lemma remove_node_absent node adj d :
  adj !! node = None ->
  remove_node node (mkGraph adj d)
  = (Raised (ValueError_node node), mkGraph adj d).
Proof.
  intros E. unfold remove_node. unfold bind at 1. rewrite contains_spec.
  rewrite bool_decide_false; [done|]. rewrite E. by intros [? ?].
Qed.

Lemma remove_node_present node adj d :
  is_Some (adj !! node) ->
  remove_node node (mkGraph adj d)
  = (Returned tt, mkGraph (remove_node_adj node adj) d).
Proof.
  intros Hnode. unfold remove_node. unfold bind at 1. rewrite contains_spec.
  rewrite bool_decide_true by done. simpl.
  unfold bind at 1. simpl.
  unfold bind at 1. rewrite remove_node_loop_spec, remove_node_fold.
  unfold delitem, bind, get_adjacency. simpl.
  destruct Hnode as [l E]. rewrite lookup_fmap, E. done.
Qed.

Lemma remove_arc_step a b adj d l :
  adj !! a = Some l -> b ∈ l ->
  (let* l1 := getitem a in
   let* l1' := lift_remove b l1 in
   setitem a l1') (mkGraph adj d)
  = (Returned tt, mkGraph (remove_arc a b adj) d).
Proof.
  intros E Hb. unfold bind at 1. rewrite (getitem_spec _ _ _ _ E).
  unfold remove_arc. rewrite E.
  apply list_in_true in Hb as Hb'. rewrite Hb'.
  apply list_remove_Some in Hb as [l' El].
  unfold bind, lift_remove, drop_first. by rewrite El.
Qed.

Lemma edge_present_true a b adj :
  edge_present a b adj = true <->
  exists l, adj !! a = Some l /\ is_Some (adj !! b) /\ b ∈ l.
Proof.
  unfold edge_present, adj_get.
  rewrite !andb_true_iff, !bool_decide_eq_true, list_in_true.
  split.
  - intros [[[l E] Hb] Hin]. rewrite E in Hin. eauto.
  - intros (l & E & Hb & Hin). rewrite E. eauto.
Qed.

Lemma remove_edge_absent a b adj d :
  edge_present a b adj = false ->
  remove_edge (a, b) (mkGraph adj d)
  = (Raised (ValueError_edge (a, b)), mkGraph adj d).
Proof.
  intros E. unfold remove_edge. unfold bind at 1. simpl.
  unfold edge_present, adj_get in E. rewrite <- !negb_andb, E. done.
Qed.

Lemma remove_edge_present a b adj d :
  edge_present a b adj = true ->
  remove_edge (a, b) (mkGraph adj d)
  = (Returned tt, mkGraph (remove_edge_adj d a b adj) d).
Proof.
  intros E. unfold remove_edge. unfold bind at 1. simpl.
  pose proof E as E'. unfold edge_present, adj_get in E'.
  rewrite <- !negb_andb, E'. simpl.
  apply edge_present_true in E as (l & El & [lb Eb] & Hin).
  pose proof (remove_arc_step a b adj d l El Hin) as Hstep.
  unfold bind at 1 in Hstep. rewrite (getitem_spec _ _ _ _ El) in Hstep.
  unfold bind at 1. rewrite (getitem_spec _ _ _ _ El).
  unfold bind at 1 in Hstep. unfold bind at 1.
  destruct (lift_remove b l (mkGraph adj d)) as [[l'| |] g'] eqn:Er;
    [|by inversion Hstep..].
  unfold bind at 1. rewrite Hstep.
  unfold remove_edge_adj.
  unfold bind at 1, get_directed. simpl.
  destruct d; simpl; [done|].
  set (adj1 := remove_arc a b adj).
  destruct (adj1 !! b) as [l2|] eqn:E2.
  - unfold bind at 1. rewrite (getitem_spec _ _ _ _ E2).
    destruct (list_in a l2) eqn:Ha.
    + apply list_in_true in Ha.
      pose proof (remove_arc_step b a adj1 false l2 E2 Ha) as Hstep2.
      unfold bind at 1 in Hstep2. by rewrite (getitem_spec _ _ _ _ E2) in Hstep2.
    + unfold remove_arc. by rewrite E2, Ha.
  - exfalso. unfold adj1, remove_arc in E2. rewrite El in E2.
    apply list_in_true in Hin. rewrite Hin in E2.
    destruct (decide (a = b)) as [-> | Hne].
    + by rewrite lookup_insert_eq in E2.
    + rewrite lookup_insert_ne in E2 by done. congruence.
Qed.

(** ** Invariants of the dictionary *)

Section adjacency_facts.
Implicit Types (adj : gmap Node (list Node)) (a b k x : Node).

Lemma adj_get_Some adj k l : adj !! k = Some l -> adj_get adj k = l.
Proof. intros E. unfold adj_get. by rewrite E. Qed.

Lemma adj_get_None adj k : adj !! k = None -> adj_get adj k = [].
Proof. intros E. unfold adj_get. by rewrite E. Qed.

Lemma elem_of_adj_get_key adj k x : x ∈ adj_get adj k -> is_Some (adj !! k).
Proof.
  unfold adj_get. destruct (adj !! k); [by eexists|].
  intros H. by apply elem_of_nil in H.
Qed.

Lemma adj_get_add_node node adj k :
  adj_get (add_node_adj node adj) k = adj_get adj k.
Proof.
  unfold add_node_adj. destruct (adj !! node) eqn:E; [done|].
  unfold adj_get. destruct (decide (node = k)) as [-> | Hne].
  - by rewrite lookup_insert_eq, E.
  - by rewrite lookup_insert_ne.
Qed.

Lemma keys_add_node node adj k :
  is_Some (add_node_adj node adj !! k) <-> k = node \/ is_Some (adj !! k).
Proof.
  unfold add_node_adj. destruct (adj !! node) eqn:E.
  - split; [by right|]. intros [-> | H]; [by rewrite E|done].
  - destruct (decide (node = k)) as [-> | Hne].
    + rewrite lookup_insert_eq. split; [by left|by eexists].
    + rewrite lookup_insert_ne by done. split; [by right|].
      intros [-> | H]; [done|done].
Qed.

Lemma keys_add_arc a b adj k :
  is_Some (add_arc a b adj !! k) <-> is_Some (adj !! k).
Proof.
  unfold add_arc. destruct (adj !! a) eqn:E; [|done].
  destruct (list_in b l); [done|].
  destruct (decide (a = k)) as [-> | Hne].
  - rewrite lookup_insert_eq, E. split; by eexists.
  - by rewrite lookup_insert_ne.
Qed.

Lemma adj_get_add_arc_ne a b adj k :
  k ≠ a -> adj_get (add_arc a b adj) k = adj_get adj k.
Proof.
  intros Hne. unfold add_arc. destruct (adj !! a) eqn:E; [|done].
  destruct (list_in b l); [done|].
  unfold adj_get. by rewrite lookup_insert_ne.
Qed.

Lemma adj_get_add_arc_eq a b adj :
  adj_get (add_arc a b adj) a
  = if bool_decide (is_Some (adj !! a)) && negb (list_in b (adj_get adj a))
    then adj_get adj a ++ [b] else adj_get adj a.
Proof.
  unfold add_arc, adj_get. destruct (adj !! a) as [l|] eqn:E.
  - rewrite bool_decide_true by eauto. simpl.
    destruct (list_in b l); simpl; [by rewrite E|].
    by rewrite lookup_insert_eq.
  - rewrite bool_decide_false; [by rewrite E|]. by intros [? ?].
Qed.

Lemma elem_of_add_arc a b adj k x :
  x ∈ adj_get (add_arc a b adj) k <->
  x ∈ adj_get adj k \/ (k = a /\ x = b /\ is_Some (adj !! a)).
Proof.
  destruct (decide (k = a)) as [-> | Hne].
  - rewrite adj_get_add_arc_eq.
    destruct (bool_decide (is_Some (adj !! a))) eqn:Ea; simpl.
    + apply bool_decide_eq_true in Ea.
      destruct (list_in b (adj_get adj a)) eqn:Eb; simpl.
      * apply list_in_true in Eb. split; [by left|].
        intros [H|(_ & -> & _)]; done.
      * rewrite elem_of_app, list_elem_of_singleton. split.
        -- intros [H | ->]; [by left|by right].
        -- intros [H|(_ & -> & _)]; [by left|by right].
    + apply bool_decide_eq_false in Ea. split; [by left|].
      intros [H|(_ & _ & H)]; done.
  - rewrite adj_get_add_arc_ne by done. split; [by left|].
    intros [H|(H & _)]; done.
Qed.

Lemma NoDup_add_arc a b adj k :
  NoDup (adj_get adj k) -> NoDup (adj_get (add_arc a b adj) k).
Proof.
  intros Hnd. destruct (decide (k = a)) as [-> | Hne].
  - rewrite adj_get_add_arc_eq.
    destruct (bool_decide (is_Some (adj !! a))); simpl; [|done].
    destruct (list_in b (adj_get adj a)) eqn:Eb; simpl; [done|].
    apply list_in_false in Eb.
    apply NoDup_app. split; [done|]. split; [|apply NoDup_singleton].
    intros x Hx Hxb. apply list_elem_of_singleton in Hxb as ->. done.
  - by rewrite adj_get_add_arc_ne.
Qed.

Lemma keys_remove_arc a b adj k :
  is_Some (remove_arc a b adj !! k) <-> is_Some (adj !! k).
Proof.
  unfold remove_arc. destruct (adj !! a) eqn:E; [|done].
  destruct (list_in b l); [|done].
  destruct (decide (a = k)) as [-> | Hne].
  - rewrite lookup_insert_eq, E. split; by eexists.
  - by rewrite lookup_insert_ne.
Qed.

Lemma adj_get_remove_arc_ne a b adj k :
  k ≠ a -> adj_get (remove_arc a b adj) k = adj_get adj k.
Proof.
  intros Hne. unfold remove_arc. destruct (adj !! a) eqn:E; [|done].
  destruct (list_in b l); [|done].
  unfold adj_get. by rewrite lookup_insert_ne.
Qed.

Lemma adj_get_remove_arc_eq a b adj :
  adj_get (remove_arc a b adj) a = drop_first b (adj_get adj a).
Proof.
  unfold remove_arc, adj_get. destruct (adj !! a) as [l|] eqn:E.
  - destruct (list_in b l) eqn:Eb; simpl.
    + by rewrite lookup_insert_eq.
    + rewrite E. simpl. apply list_in_false in Eb.
      by rewrite drop_first_absent.
  - by rewrite E.
Qed.

Lemma NoDup_remove_arc a b adj k :
  NoDup (adj_get adj k) -> NoDup (adj_get (remove_arc a b adj) k).
Proof.
  intros Hnd. destruct (decide (k = a)) as [-> | Hne].
  - rewrite adj_get_remove_arc_eq. by apply NoDup_drop_first.
  - by rewrite adj_get_remove_arc_ne.
Qed.

Lemma elem_of_remove_arc a b adj k x :
  NoDup (adj_get adj a) ->
  x ∈ adj_get (remove_arc a b adj) k <->
  x ∈ adj_get adj k /\ ~ (k = a /\ x = b).
Proof.
  intros Hnd. destruct (decide (k = a)) as [-> | Hne].
  - rewrite adj_get_remove_arc_eq. destruct (decide (x = b)) as [->|Hxb].
    + split; [|intros [_ H]; by destruct H].
      intros H. by apply not_elem_of_drop_first in H.
    + rewrite elem_of_drop_first_ne by done. split; [|by intros [? _]].
      intros H. split; [done|]. by intros [_ ?].
  - rewrite adj_get_remove_arc_ne by done. split; [|by intros [? _]].
    intros H. split; [done|]. by intros [? _].
Qed.

Lemma keys_remove_node node adj k :
  is_Some (remove_node_adj node adj !! k) <->
  is_Some (adj !! k) /\ k ≠ node.
Proof.
  unfold remove_node_adj. destruct (decide (node = k)) as [-> | Hne].
  - rewrite lookup_delete_eq. split; [by intros [? ?]|by intros [_ ?]].
  - rewrite lookup_delete_ne, lookup_fmap by done.
    rewrite fmap_is_Some. split; [by intros ?|by intros [? _]].
Qed.

Lemma adj_get_remove_node node adj k :
  adj_get (remove_node_adj node adj) k
  = if decide (k = node) then [] else drop_first node (adj_get adj k).
Proof.
  unfold remove_node_adj, adj_get. destruct (decide (k = node)) as [-> | Hne].
  - by rewrite lookup_delete_eq.
  - rewrite lookup_delete_ne, lookup_fmap by done.
    by destruct (adj !! k).
Qed.

Lemma NoDup_remove_node node adj k :
  NoDup (adj_get adj k) -> NoDup (adj_get (remove_node_adj node adj) k).
Proof.
  intros Hnd. rewrite adj_get_remove_node.
  destruct (decide (k = node)); [constructor|by apply NoDup_drop_first].
Qed.

Lemma elem_of_remove_node node adj k x :
  NoDup (adj_get adj k) ->
  x ∈ adj_get (remove_node_adj node adj) k <->
  x ∈ adj_get adj k /\ k ≠ node /\ x ≠ node.
Proof.
  intros Hnd. rewrite adj_get_remove_node.
  destruct (decide (k = node)) as [-> | Hne].
  - split; [intros H; by apply elem_of_nil in H|by intros (_ & ? & _)].
  - destruct (decide (x = node)) as [-> | Hx].
    + split; [|by intros (_ & _ & ?)].
      intros H. by apply not_elem_of_drop_first in H.
    + rewrite elem_of_drop_first_ne by done. split; [done|by intros [? _]].
Qed.
End adjacency_facts.

Section invariant_steps.
Implicit Types (adj : gmap Node (list Node)) (a b k x : Node).

Lemma adj_ok_empty : adj_ok ∅.
Proof.
  split; intros k; unfold adj_get; rewrite lookup_empty; simpl.
  - constructor.
  - intros x H. by apply elem_of_nil in H.
Qed.

Lemma adj_sym_empty : adj_sym ∅.
Proof.
  intros a b. unfold adj_get. rewrite lookup_empty. simpl.
  intros H. by apply elem_of_nil in H.
Qed.

Lemma adj_ok_add_node node adj : adj_ok adj -> adj_ok (add_node_adj node adj).
Proof.
  intros [Hnd Hcl]. split.
  - intros k. rewrite adj_get_add_node. apply Hnd.
  - intros k x. rewrite adj_get_add_node. intros Hx.
    apply keys_add_node. right. by apply (Hcl k).
Qed.

Lemma adj_sym_add_node node adj : adj_sym adj -> adj_sym (add_node_adj node adj).
Proof. intros Hs a b. rewrite !adj_get_add_node. apply Hs. Qed.

Lemma adj_ok_add_arc a b adj :
  is_Some (adj !! b) -> adj_ok adj -> adj_ok (add_arc a b adj).
Proof.
  intros Hb [Hnd Hcl]. split.
  - intros k. by apply NoDup_add_arc.
  - intros k x. rewrite elem_of_add_arc, keys_add_arc.
    intros [Hx|(_ & -> & _)]; [by apply (Hcl k)|done].
Qed.

Lemma adj_ok_add_edge d a b adj : adj_ok adj -> adj_ok (add_edge_adj d a b adj).
Proof.
  intros Hok. unfold add_edge_adj.
  assert (adj_ok (add_arc a b (add_node_adj b (add_node_adj a adj)))) as Hok1.
  { apply adj_ok_add_arc; [apply add_node_adj_lookup_eq|].
    by do 2 apply adj_ok_add_node. }
  destruct d; [done|].
  apply adj_ok_add_arc; [|done].
  apply keys_add_arc, add_node_adj_is_Some, add_node_adj_lookup_eq.
Qed.

Lemma adj_sym_add_edge a b adj :
  adj_sym adj -> adj_sym (add_edge_adj false a b adj).
Proof.
  intros Hs. unfold add_edge_adj.
  set (adj2 := add_node_adj b (add_node_adj a adj)).
  assert (Hs2 : adj_sym adj2) by (by do 2 apply adj_sym_add_node).
  assert (Ha : is_Some (adj2 !! a)).
  { apply add_node_adj_is_Some, add_node_adj_lookup_eq. }
  assert (Hb : is_Some (adj2 !! b)) by apply add_node_adj_lookup_eq.
  intros x y. rewrite !elem_of_add_arc, !keys_add_arc.
  intros [[Hxy|(-> & -> & _)]|(-> & -> & _)].
  - left. left. by apply Hs2.
  - by right.
  - left. by right.
Qed.

Lemma adj_ok_remove_arc a b adj : adj_ok adj -> adj_ok (remove_arc a b adj).
Proof.
  intros [Hnd Hcl]. split.
  - intros k. by apply NoDup_remove_arc.
  - intros k x. rewrite elem_of_remove_arc, keys_remove_arc by done.
    intros [Hx _]. by apply (Hcl k).
Qed.

Lemma adj_ok_remove_edge d a b adj :
  adj_ok adj -> adj_ok (remove_edge_adj d a b adj).
Proof.
  intros Hok. unfold remove_edge_adj.
  destruct d; by repeat apply adj_ok_remove_arc.
Qed.

Lemma adj_sym_remove_edge a b adj :
  adj_ok adj -> adj_sym adj -> adj_sym (remove_edge_adj false a b adj).
Proof.
  intros Hok Hs. unfold remove_edge_adj.
  pose proof (adj_ok_remove_arc a b adj Hok) as Hok1.
  intros x y.
  rewrite !(elem_of_remove_arc b a) by apply Hok1.
  rewrite !(elem_of_remove_arc a b) by apply Hok.
  intros [[Hxy Hn1] Hn2]. split; [split|].
  - by apply Hs.
  - intros [-> ->]. by apply Hn2.
  - intros [-> ->]. by apply Hn1.
Qed.

Lemma adj_ok_remove_node node adj :
  adj_ok adj -> adj_ok (remove_node_adj node adj).
Proof.
  intros [Hnd Hcl]. split.
  - intros k. by apply NoDup_remove_node.
  - intros k x. rewrite elem_of_remove_node, keys_remove_node by done.
    intros (Hx & _ & Hne). split; [by apply (Hcl k)|done].
Qed.

Lemma adj_sym_remove_node node adj :
  adj_ok adj -> adj_sym adj -> adj_sym (remove_node_adj node adj).
Proof.
  intros [Hnd Hcl] Hs x y. rewrite !elem_of_remove_node by done.
  intros (Hxy & Hx & Hy). split; [by apply Hs|done].
Qed.
End invariant_steps.

Lemma state_after_mutate m adj d :
  state_after (mutate m (mkGraph adj d)) = mkGraph (mutate_adj d m adj) d.
Proof.
  destruct m as [node|[a b]|node|[a b]]; unfold mutate, mutate_adj.
  - by rewrite add_node_spec.
  - by rewrite add_edge_spec.
  - case_bool_decide as Hn.
    + by rewrite remove_node_present.
    + rewrite remove_node_absent; [done|].
      destruct (adj !! node) eqn:E; [|done]. destruct Hn. by eexists.
  - destruct (edge_present a b adj) eqn:E.
    + by rewrite remove_edge_present.
    + by rewrite remove_edge_absent.
Qed.

Lemma init_spec edges d :
  __init__ edges d
  = mkGraph (foldl (fun adj e => add_edge_adj d e.1 e.2 adj) ∅ edges) d.
Proof.
  unfold __init__. generalize (∅ : gmap Node (list Node)) as adj.
  induction edges as [|[a b] edges IH]; intros adj; [done|].
  cbn [for_each foldl]. unfold bind. rewrite add_edge_spec. apply IH.
Qed.

Lemma mutate_adj_ok d m adj : adj_ok adj -> adj_ok (mutate_adj d m adj).
Proof.
  intros Hok. destruct m as [node|[a b]|node|[a b]]; simpl.
  - by apply adj_ok_add_node.
  - by apply adj_ok_add_edge.
  - case_bool_decide; [by apply adj_ok_remove_node|done].
  - destruct (edge_present a b adj); [by apply adj_ok_remove_edge|done].
Qed.

Lemma mutate_adj_sym m adj :
  adj_ok adj -> adj_sym adj -> adj_sym (mutate_adj false m adj).
Proof.
  intros Hok Hs. destruct m as [node|[a b]|node|[a b]]; simpl.
  - by apply adj_sym_add_node.
  - by apply adj_sym_add_edge.
  - case_bool_decide; [by apply adj_sym_remove_node|done].
  - destruct (edge_present a b adj); [by apply adj_sym_remove_edge|done].
Qed.

Lemma init_inv edges d : graph_inv d (__init__ edges d).
Proof.
  rewrite init_spec.
  assert (forall adj, adj_ok adj -> (d = false -> adj_sym adj) ->
    let adj' := foldl (fun adj e => add_edge_adj d e.1 e.2 adj) adj edges in
    adj_ok adj' /\ (d = false -> adj_sym adj')) as Hfold.
  { induction edges as [|[a b] edges IH]; intros adj Hok Hs; [done|].
    simpl. apply IH; [by apply adj_ok_add_edge|].
    intros ->. apply adj_sym_add_edge. by apply Hs. }
  destruct (Hfold ∅ adj_ok_empty (fun _ => adj_sym_empty)) as [Hok Hs].
  by split.
Qed.

Lemma reachable_inv d g : reachable d g -> graph_inv d g.
Proof.
  induction 1 as [edges|g m _ [Hd Hok Hs]]; [apply init_inv|].
  destruct g as [adj d']. simpl in *. subst d'.
  rewrite state_after_mutate. split; simpl; [done| |].
  - by apply mutate_adj_ok.
  - intros ->. apply mutate_adj_sym; [done|by apply Hs].
Qed.

(** ** What the queries return *)

Lemma has_edge_spec a b adj d :
  has_edge (a, b) (mkGraph adj d) = (Returned (edge_present a b adj), mkGraph adj d).
Proof.
  unfold has_edge, edge_present, adj_get. unfold bind at 1. rewrite contains_spec.
  destruct (adj !! a) as [l|] eqn:Ea.
  - rewrite bool_decide_true by eauto. cbn [negb andb].
    unfold bind at 1. rewrite contains_spec.
    destruct (bool_decide (is_Some (adj !! b))); cbn [negb andb]; [|done].
    unfold bind. by rewrite (getitem_spec _ _ _ _ Ea).
  - rewrite bool_decide_false; [done|]. by intros [? ?].
Qed.

Lemma get_neighbors_spec node adj d :
  get_neighbors node (mkGraph adj d)
  = if bool_decide (is_Some (adj !! node))
    then (Returned (adj_get adj node), mkGraph adj d)
    else (Raised (ValueError_node node), mkGraph adj d).
Proof.
  unfold get_neighbors. unfold bind at 1. rewrite contains_spec.
  by destruct (bool_decide (is_Some (adj !! node))).
Qed.

Lemma outdegree_spec node adj d :
  outdegree node (mkGraph adj d)
  = if bool_decide (is_Some (adj !! node))
    then (Returned (length (adj_get adj node)), mkGraph adj d)
    else (Raised (ValueError_node node), mkGraph adj d).
Proof.
  unfold outdegree. unfold bind at 1. rewrite contains_spec.
  case_bool_decide as Hn; cbn [negb]; [|done].
  destruct Hn as [l E]. unfold bind. rewrite (getitem_spec _ _ _ _ E).
  by rewrite (adj_get_Some _ _ _ E).
Qed.

Lemma indegree_spec node adj d :
  indegree node (mkGraph adj d)
  = if bool_decide (is_Some (adj !! node))
    then (Returned (count_in node (map_to_list adj)), mkGraph adj d)
    else (Raised (ValueError_node node), mkGraph adj d).
Proof.
  unfold indegree. unfold bind at 1. rewrite contains_spec.
  by case_bool_decide.
Qed.

Lemma count_in_filter node items :
  count_in node items = length (filter (fun kv => node ∈ kv.2) items).
Proof.
  unfold count_in.
  assert (forall n, foldl (fun count '(_, neighbors) =>
             if list_in node neighbors then count + 1 else count) n items
           = n + length (filter (fun kv : Node * list Node => node ∈ kv.2) items)) as H.
  { induction items as [|[k v] items IH]; intros n; [simpl; lia|].
    cbn [foldl]. rewrite IH, filter_cons. cbn [snd].
    unfold list_in. destruct (decide (node ∈ v)) as [Hin|Hin].
    - rewrite bool_decide_true by done. simpl. lia.
    - by rewrite bool_decide_false by done. }
  apply (H 0).
Qed.

Lemma count_in_symmetric node (adj : gmap Node (list Node)) :
  adj_ok adj -> adj_sym adj ->
  count_in node (map_to_list adj) = length (adj_get adj node).
Proof.
  intros [Hnd Hcl] Hs. rewrite count_in_filter.
  rewrite <- (length_fmap fst). apply Permutation_length.
  apply NoDup_Permutation; [| apply Hnd |].
  - eapply sublist_NoDup; [apply (NoDup_fst_map_to_list adj)|].
    apply fmap_sublist, sublist_filter.
  - intros k. rewrite list_elem_of_fmap. split.
    + intros [[k' v] [-> [Hin Hkv]%list_elem_of_filter]]. simpl in *.
      apply elem_of_map_to_list in Hkv. apply Hs.
      by rewrite (adj_get_Some _ _ _ Hkv).
    + intros Hk. apply Hs in Hk.
      destruct (elem_of_adj_get_key _ _ _ Hk) as [v E].
      exists (k, v). split; [done|]. apply list_elem_of_filter. split.
      * simpl. by rewrite (adj_get_Some _ _ _ E) in Hk.
      * by apply elem_of_map_to_list.
Qed.

Lemma add_node_adj_id node (adj : gmap Node (list Node)) :
  is_Some (adj !! node) -> add_node_adj node adj = adj.
Proof. intros [l E]. unfold add_node_adj. by rewrite E. Qed.

Lemma add_arc_id a b (adj : gmap Node (list Node)) :
  b ∈ adj_get adj a -> add_arc a b adj = adj.
Proof.
  intros Hb. destruct (elem_of_adj_get_key _ _ _ Hb) as [l E].
  rewrite (adj_get_Some _ _ _ E) in Hb. apply list_in_true in Hb.
  unfold add_arc. by rewrite E, Hb.
Qed.

Lemma add_edge_adj_idempotent d a b (adj : gmap Node (list Node)) :
  add_edge_adj d a b (add_edge_adj d a b adj) = add_edge_adj d a b adj.
Proof.
  set (adj' := add_edge_adj d a b adj).
  set (adj2 := add_node_adj b (add_node_adj a adj)).
  assert (Ha2 : is_Some (adj2 !! a)).
  { apply add_node_adj_is_Some, add_node_adj_lookup_eq. }
  assert (Hb2 : is_Some (adj2 !! b)) by apply add_node_adj_lookup_eq.
  assert (Hab : b ∈ adj_get adj' a).
  { unfold adj', add_edge_adj. fold adj2.
    destruct d; rewrite ?elem_of_add_arc; [by right|]. left. by right. }
  assert (Hba : d = false -> a ∈ adj_get adj' b).
  { intros ->. unfold adj', add_edge_adj. fold adj2.
    rewrite elem_of_add_arc, keys_add_arc. by right. }
  assert (Ha : is_Some (adj' !! a)) by (by eapply elem_of_adj_get_key).
  assert (Hb : is_Some (adj' !! b)).
  { unfold adj', add_edge_adj. fold adj2.
    destruct d; rewrite ?keys_add_arc; done. }
  unfold add_edge_adj at 1.
  rewrite (add_node_adj_id a), (add_node_adj_id b), (add_arc_id a b) by done.
  destruct d; [done|]. by rewrite add_arc_id by auto.
Qed.

(** ** The traversal loops end within [traversal_fuel] *)

Section traversal_fuel.
Variable adj : gmap Node (list Node).

Lemma sum_list_fmap_le {A} (f f' : A -> nat) (items : list A) :
  (forall a, a ∈ items -> f' a <= f a) ->
  sum_list (f' <$> items) <= sum_list (f <$> items).
Proof.
  induction items as [|a items IH]; intros Hle; [done|].
  rewrite !fmap_cons. simpl.
  assert (f' a <= f a) by (apply Hle, elem_of_cons; by left).
  assert (sum_list (f' <$> items) <= sum_list (f <$> items)).
  { apply IH. intros b Hb. apply Hle, elem_of_cons. by right. }
  simpl in *. lia.
Qed.

Lemma sum_list_fmap_drop {A} (f f' : A -> nat) (items : list A) a0 n :
  (forall a, a ∈ items -> f' a <= f a) ->
  a0 ∈ items -> f' a0 + n <= f a0 ->
  sum_list (f' <$> items) + n <= sum_list (f <$> items).
Proof.
  induction items as [|a items IH]; intros Hle Hin Hn.
  { by apply elem_of_nil in Hin. }
  rewrite !fmap_cons. simpl.
  assert (Hrest : forall b, b ∈ items -> f' b <= f b).
  { intros b Hb. apply Hle, elem_of_cons. by right. }
  apply elem_of_cons in Hin as [<- | Hin].
  - pose proof (sum_list_fmap_le f f' items Hrest). simpl in *. lia.
  - assert (f' a <= f a) by (apply Hle, elem_of_cons; by left).
    pose proof (IH Hrest Hin Hn). simpl in *. lia.
Qed.

Lemma unvisited_weight_bound visited :
  S (S (unvisited_weight adj visited)) <= traversal_fuel adj.
Proof.
  unfold traversal_fuel, unvisited_weight.
  do 2 apply le_n_S.
  induction (map_to_list adj) as [|[k l] items IH]; [done|].
  rewrite !fmap_cons. simpl. rewrite length_app.
  destruct (list_in k visited); simpl in *; lia.
Qed.

Lemma unvisited_weight_visit visited current :
  current ∉ visited ->
  unvisited_weight adj (visited ++ [current]) + length (adj_get adj current)
  <= unvisited_weight adj visited.
Proof.
  intros Hnew. unfold unvisited_weight.
  assert (Hle : forall kv : Node * list Node, kv ∈ map_to_list adj ->
    (if list_in kv.1 (visited ++ [current]) then 0 else length kv.2)
    <= (if list_in kv.1 visited then 0 else length kv.2)).
  { intros [k l] _. cbn [fst snd].
    destruct (list_in k visited) eqn:E.
    - apply list_in_true in E.
      rewrite (proj2 (list_in_true k (visited ++ [current]))); [done|].
      apply elem_of_app. by left.
    - destruct (list_in k (visited ++ [current])); lia. }
  destruct (adj !! current) as [l|] eqn:E.
  - rewrite (adj_get_Some _ _ _ E).
    apply (sum_list_fmap_drop _ _ _ (current, l)); [done| |].
    + by apply elem_of_map_to_list.
    + cbn [fst snd].
      rewrite (proj2 (list_in_true current (visited ++ [current]))).
      * rewrite (proj2 (list_in_false current visited)) by done. lia.
      * apply elem_of_app. right. by apply list_elem_of_singleton.
  - rewrite (adj_get_None _ _ E). simpl. rewrite Nat.add_0_r.
    by apply sum_list_fmap_le.
Qed.

Lemma push_unvisited_length (visited work neighbors : list Node) :
  length (foldl (fun work neighbor =>
                   if negb (list_in neighbor visited)
                   then work ++ [neighbor] else work) work neighbors)
  <= length work + length neighbors.
Proof.
  revert work. induction neighbors as [|n neighbors IH]; intros work.
  { simpl. lia. }
  cbn [foldl]. etransitivity; [apply IH|].
  destruct (list_in n visited); cbn [negb]; rewrite ?length_app; simpl; lia.
Qed.

Lemma list_pop_length {A} (l l' : list A) x :
  list_pop l = Some (x, l') -> length l = S (length l').
Proof.
  unfold list_pop. rewrite <- (length_rev l).
  destruct (rev l) as [|y r]; [done|].
  intros [= -> <-]. by rewrite length_rev.
Qed.

Lemma dfs_loop_total fuel visited stack :
  length stack + unvisited_weight adj visited < fuel ->
  is_Some (dfs_loop adj fuel visited stack).
Proof.
  revert visited stack. induction fuel as [|fuel IH]; intros visited stack Hlt.
  { lia. }
  cbn [dfs_loop]. destruct (list_pop stack) as [[current stack']|] eqn:Epop.
  - apply list_pop_length in Epop.
    destruct (list_in current visited) eqn:Hin; cbn [negb].
    + apply IH. lia.
    + apply list_in_false in Hin. apply IH.
      pose proof (unvisited_weight_visit visited current Hin).
      pose proof (push_unvisited_length (visited ++ [current]) stack'
                    (rev (adj_get adj current))) as Hpush.
      rewrite length_rev in Hpush. lia.
  - by eexists.
Qed.

Lemma bfs_loop_total fuel visited queue :
  length queue + unvisited_weight adj visited < fuel ->
  is_Some (bfs_loop adj fuel visited queue).
Proof.
  revert visited queue. induction fuel as [|fuel IH]; intros visited queue Hlt.
  { lia. }
  cbn [bfs_loop]. destruct queue as [|current queue]; [by eexists|].
  cbn [length] in Hlt.
  destruct (list_in current visited) eqn:Hin; cbn [negb].
  - apply IH. lia.
  - apply list_in_false in Hin. apply IH.
    pose proof (unvisited_weight_visit visited current Hin).
    pose proof (push_unvisited_length (visited ++ [current]) queue
                  (adj_get adj current)) as Hpush.
    lia.
Qed.

Lemma dfs_loop_returns start :
  is_Some (dfs_loop adj (traversal_fuel adj) [] [start]).
Proof.
  apply dfs_loop_total. pose proof (unvisited_weight_bound []). simpl. lia.
Qed.

Lemma bfs_loop_returns start :
  is_Some (bfs_loop adj (traversal_fuel adj) [] [start]).
Proof.
  apply bfs_loop_total. pose proof (unvisited_weight_bound []). simpl. lia.
Qed.
End traversal_fuel.

(** ** Paths *)

Section paths.
Variable adj : gmap Node (list Node).

Lemma is_path_snoc p w :
  is_path adj (p ++ [w]) = true <->
  is_path adj p = true /\
  match last p with Some v => w ∈ adj_get adj v | None => True end.
Proof.
  induction p as [|a p IH]; [done|].
  destruct p as [|b p].
  - cbn. rewrite andb_true_r. rewrite list_in_true. tauto.
  - change (is_path adj ((a :: b :: p) ++ [w]))
      with (list_in b (adj_get adj a) && is_path adj ((b :: p) ++ [w])).
    change (is_path adj (a :: b :: p))
      with (list_in b (adj_get adj a) && is_path adj (b :: p)).
    rewrite !andb_true_iff, IH, last_cons_cons. tauto.
Qed.

Lemma walk_nonempty start v p : walk adj start v p -> 1 <= length p.
Proof. destruct 1; rewrite ?length_app; simpl; lia. Qed.

Lemma walk_path start v p : walk adj start v p -> path_from_to adj start v p.
Proof.
  induction 1 as [|v p w Hw (Hh & Hl & Hp) Hedge]; [done|].
  split; [|split].
  - apply head_Some in Hh as [p' ->]. done.
  - apply last_snoc.
  - apply is_path_snoc. by rewrite Hl.
Qed.

Lemma path_walk start v p : path_from_to adj start v p -> walk adj start v p.
Proof.
  revert v. induction p as [|w p IH] using rev_ind; intros v (Hh & Hl & Hp).
  { done. }
  rewrite last_snoc in Hl. injection Hl as ->.
  destruct p as [|a p].
  - simpl in Hh. injection Hh as ->. constructor.
  - apply is_path_snoc in Hp as [Hp Hedge].
    destruct (last (a :: p)) as [u|] eqn:Hu.
    + apply walk_step with u; [|done]. apply IH. done.
    + by apply last_None in Hu.
Qed.
End paths.

(** ** The search for a shortest path *)

Section shortest_path.
Variables (adj : gmap Node (list Node)) (start end_ : Node).

Lemma size_list_to_set_le (l : list Node) :
  size (list_to_set l : gset Node) <= length l.
Proof.
  induction l as [|x l IH]; [by rewrite list_to_set_nil, size_empty|].
  rewrite list_to_set_cons, size_union_alt, size_singleton. simpl.
  assert (size (list_to_set l ∖ {[x]} : gset Node)
          <= size (list_to_set l : gset Node)).
  { apply subseteq_size. intros y Hy. by apply elem_of_difference in Hy as [? _]. }
  lia.
Qed.

Lemma universe_size : S (S (size (universe adj))) <= traversal_fuel adj.
Proof.
  unfold traversal_fuel, universe. do 2 apply le_n_S. apply size_list_to_set_le.
Qed.

Lemma elem_of_universe k n : n ∈ adj_get adj k -> n ∈ universe adj.
Proof.
  intros Hn. destruct (elem_of_adj_get_key _ _ _ Hn) as [l E].
  rewrite (adj_get_Some _ _ _ E) in Hn.
  unfold universe. apply elem_of_list_to_set, list_elem_of_In, in_concat.
  exists l. split; [|by apply list_elem_of_In].
  apply list_elem_of_In, list_elem_of_fmap. exists (k, l). split; [done|].
  by apply elem_of_map_to_list.
Qed.

Lemma fsp_frontier queue visited w q :
  fsp_inv adj start end_ queue visited ->
  walk adj start w q ->
  (forall e, e ∈ queue -> length q <= length e.2) ->
  w ∈ visited.
Proof.
  intros Hinv Hw. induction Hw as [|v p w Hw IH Hedge]; intros Hq.
  { apply (fsp_start _ _ _ _ _ Hinv). }
  assert (Hv : v ∈ visited).
  { apply IH. intros e He. specialize (Hq e He).
    rewrite length_app in Hq. simpl in Hq. lia. }
  destruct (decide (v ∈ queue.*1)) as [Hin|Hout].
  - apply list_elem_of_fmap in Hin as [[v' pv] [Heq He]]. simpl in Heq. subst v'.
    pose proof (fsp_minimal _ _ _ _ _ Hinv _ _ _ He Hw) as Hmin.
    specialize (Hq _ He). rewrite length_app in Hq. simpl in Hq. lia.
  - by apply (fsp_closed _ _ _ _ _ Hinv v Hv Hout).
Qed.

Lemma fsp_visit_fold path ns queue visited :
  exists new,
    (foldl (fsp_visit path) (queue, visited) ns).1 = queue ++ new /\
    (forall x, x ∈ (foldl (fsp_visit path) (queue, visited) ns).2 <->
               x ∈ visited \/ x ∈ new.*1) /\
    Forall (fun e => e.1 ∈ ns /\ (e.1 ∉ visited) /\ e.2 = path ++ [e.1]) new /\
    (forall n, n ∈ ns -> n ∈ (foldl (fsp_visit path) (queue, visited) ns).2) /\
    ((forall n, n ∈ ns -> n ∈ universe adj) ->
     size (universe adj ∖ (foldl (fsp_visit path) (queue, visited) ns).2)
       + length new <= size (universe adj ∖ visited)).
Proof.
  revert queue visited. induction ns as [|n ns IH]; intros queue visited.
  { exists []. cbn [foldl fst snd]. rewrite app_nil_r.
    split; [done|]. split; [|split; [constructor|split]].
    - intros x. rewrite fmap_nil, elem_of_nil. tauto.
    - intros n Hn. by apply elem_of_nil in Hn.
    - intros _. simpl. lia. }
  cbn [foldl]. unfold fsp_visit at 2 4 6 8. cbn [fst snd].
  destruct (decide (n ∈ visited)) as [Hin|Hnew].
  - destruct (IH queue visited) as (new & Hq & Hv & Hall & Hcov & Hsize).
    exists new. split; [done|]. split; [done|]. split; [|split].
    + eapply Forall_impl; [apply Hall|]. intros e (? & ? & ?).
      split; [|done]. apply elem_of_cons. by right.
    + intros m [-> | Hm]%elem_of_cons; [|by apply Hcov].
      apply Hv. by left.
    + intros HU. apply Hsize. intros m Hm. apply HU, elem_of_cons. by right.
  - destruct (IH (queue ++ [(n, path ++ [n])]) ({[n]} ∪ visited))
      as (new & Hq & Hv & Hall & Hcov & Hsize).
    exists ((n, path ++ [n]) :: new). split; [|split; [|split; [|split]]].
    + rewrite Hq, <- app_assoc. done.
    + intros x. rewrite Hv, fmap_cons, elem_of_cons, elem_of_union,
        elem_of_singleton. cbn [fst]. tauto.
    + constructor.
      * cbn [fst snd]. split; [apply elem_of_cons; by left|done].
      * eapply Forall_impl; [apply Hall|]. intros e (? & Hne & ?).
        split; [apply elem_of_cons; by right|]. split; [|done].
        intros ?. apply Hne, elem_of_union. by right.
    + intros m [-> | Hm]%elem_of_cons; [|by apply Hcov].
      apply Hv. left. apply elem_of_union. left. by apply elem_of_singleton.
    + intros HU.
      assert (size (universe adj ∖ ({[n]} ∪ visited))
              < size (universe adj ∖ visited)).
      { apply subset_size. split.
        - intros y [Hy Hout]%elem_of_difference. apply elem_of_difference.
          split; [done|]. intros ?. apply Hout, elem_of_union. by right.
        - intros Hsub. assert (n ∈ universe adj ∖ ({[n]} ∪ visited)) as Hn.
          { apply Hsub, elem_of_difference. split; [|done].
            apply HU, elem_of_cons. by left. }
          apply elem_of_difference in Hn as [_ Hn]. apply Hn, elem_of_union.
          left. by apply elem_of_singleton. }
      assert (size (universe adj
                ∖ (foldl (fsp_visit path)
                     (queue ++ [(n, path ++ [n])], {[n]} ∪ visited) ns).2)
              + length new <= size (universe adj ∖ ({[n]} ∪ visited))).
      { apply Hsize. intros m Hm. apply HU, elem_of_cons. by right. }
      simpl. lia.
Qed.

Lemma fsp_inv_init : fsp_inv adj start end_ [(start, [start])] {[start]}.
Proof.
  split.
  - by apply elem_of_singleton.
  - intros v p [= -> ->]%list_elem_of_singleton. split; [constructor|].
    by apply elem_of_singleton.
  - intros v p q [= -> ->]%list_elem_of_singleton Hq.
    by apply walk_nonempty in Hq.
  - intros y ->%elem_of_singleton Hy. destruct Hy.
    apply list_elem_of_singleton. done.
  - exists 1, [(start, [start])], []. split; [done|]. split; repeat constructor.
Qed.

Lemma fsp_head_min u pu queue visited e :
  fsp_inv adj start end_ ((u, pu) :: queue) visited ->
  e ∈ (u, pu) :: queue -> length pu <= length e.2.
Proof.
  intros Hinv He. destruct (fsp_levels _ _ _ _ _ Hinv) as (d & A & B & HQ & HA & HB).
  rewrite Forall_forall in HA, HB.
  assert (forall e', e' ∈ A ++ B -> d <= length e'.2 <= S d) as Hrange.
  { intros e' [H|H]%elem_of_app; [rewrite (HA _ H)|rewrite (HB _ H)]; lia. }
  destruct A as [|a A].
  - simpl in HQ. rewrite <- HQ in HB.
    pose proof (HB e He) as He'.
    assert (length (u, pu).2 = S d) as Hu.
    { apply HB, elem_of_cons. by left. }
    cbn [snd] in Hu. lia.
  - simpl in HQ. injection HQ as <- HQ.
    assert (length (u, pu).2 = d) as Hu.
    { apply HA, elem_of_cons. by left. }
    cbn [snd] in Hu. rewrite Hu.
    apply Hrange. rewrite <- app_comm_cons, <- HQ. done.
Qed.

Lemma fsp_inv_step u pu queue visited :
  fsp_inv adj start end_ ((u, pu) :: queue) visited ->
  u ≠ end_ ->
  fsp_inv adj start end_
    (foldl (fsp_visit pu) (queue, visited) (adj_get adj u)).1
    (foldl (fsp_visit pu) (queue, visited) (adj_get adj u)).2.
Proof.
  intros Hinv Hu.
  destruct (fsp_visit_fold pu (adj_get adj u) queue visited)
    as (new & -> & Hv & Hnew & Hcov & _).
  rewrite Forall_forall in Hnew.
  destruct (fsp_walks _ _ _ _ _ Hinv u pu) as [Hwu Huv].
  { apply elem_of_cons. by left. }
  split.
  - apply Hv. left. apply (fsp_start _ _ _ _ _ Hinv).
  - intros v p [Hq|Hn]%elem_of_app.
    + destruct (fsp_walks _ _ _ _ _ Hinv v p) as [Hw Hvis].
      { apply elem_of_cons. by right. }
      split; [done|]. apply Hv. by left.
    + destruct (Hnew _ Hn) as (Hedge & _ & Hp). cbn [fst snd] in *. subst p.
      split; [by apply walk_step with u|].
      apply Hv. right. apply list_elem_of_fmap. by exists (v, pu ++ [v]).
  - intros v p q [Hq|Hn]%elem_of_app Hw.
    + apply (fsp_minimal _ _ _ _ _ Hinv v p q); [|done].
      apply elem_of_cons. by right.
    + destruct (Hnew _ Hn) as (Hedge & Hfresh & Hp). cbn [fst snd] in *. subst p.
      rewrite length_app. simpl.
      destruct (decide (length q <= length pu)) as [Hle|]; [|lia].
      destruct Hfresh. apply (fsp_frontier _ _ _ _ Hinv Hw).
      intros e He. pose proof (fsp_head_min _ _ _ _ _ Hinv He). lia.
  - intros y Hy Hout. rewrite fmap_app, elem_of_app in Hout.
    apply Hv in Hy as [Hy|Hy]; [|destruct Hout; by right].
    destruct (decide (y = u)) as [-> | Hyu].
    + split; [done|]. intros w Hw. by apply Hcov.
    + destruct (fsp_closed _ _ _ _ _ Hinv y Hy) as [Hend Hnb].
      { rewrite fmap_cons, elem_of_cons. cbn [fst].
        intros [?|?]; [done|]. apply Hout. by left. }
      split; [done|]. intros w Hw. apply Hv. left. by apply Hnb.
  - destruct (fsp_levels _ _ _ _ _ Hinv) as (d & A & B & HQ & HA & HB).
    assert (Forall (fun e : Node * list Node => length e.2 = S (length pu)) new)
      as Hlen.
    { apply Forall_forall. intros e He. destruct (Hnew _ He) as (_ & _ & ->).
      rewrite length_app. simpl. lia. }
    destruct A as [|a A].
    + simpl in HQ. subst B. apply Forall_cons in HB as [Hpu HB].
      cbn [snd] in Hpu. rewrite Hpu in Hlen.
      by exists (S d), queue, new.
    + simpl in HQ. injection HQ as <- ->. apply Forall_cons in HA as [Hpu HA].
      cbn [snd] in Hpu. rewrite Hpu in Hlen.
      exists d, A, (B ++ new). split; [by rewrite app_assoc|].
      split; [done|]. by apply Forall_app.
Qed.

Lemma fsp_loop_correct fuel queue visited :
  fsp_inv adj start end_ queue visited ->
  size (universe adj ∖ visited) + length queue < fuel ->
  match fsp_loop adj end_ fuel queue visited with
  | Some (Some p) =>
      walk adj start end_ p /\
      forall q, walk adj start end_ q -> length p <= length q
  | Some None => forall q, ~ walk adj start end_ q
  | None => False
  end.
Proof.
  revert queue visited. induction fuel as [|fuel IH]; intros queue visited Hinv Hlt.
  { lia. }
  cbn [fsp_loop]. destruct queue as [|[u pu] queue].
  - intros q Hq.
    assert (end_ ∈ visited) as Hend.
    { apply (fsp_frontier _ _ _ _ Hinv Hq). intros e He. by apply elem_of_nil in He. }
    destruct (fsp_closed _ _ _ _ _ Hinv end_ Hend) as [Hne _]; [|done].
    rewrite fmap_nil. apply not_elem_of_nil.
  - destruct (decide (u = end_)) as [-> | Hu].
    + split.
      * apply (fsp_walks _ _ _ _ _ Hinv). apply elem_of_cons. by left.
      * intros q Hq. apply (fsp_minimal _ _ _ _ _ Hinv end_ pu q); [|done].
        apply elem_of_cons. by left.
    + apply IH; [by apply fsp_inv_step|].
      destruct (fsp_visit_fold pu (adj_get adj u) queue visited)
        as (new & -> & _ & _ & _ & Hsize).
      specialize (Hsize (elem_of_universe u)).
      rewrite length_app. cbn [length] in Hlt. lia.
Qed.

Lemma fsp_loop_returns :
  match fsp_loop adj end_ (traversal_fuel adj) [(start, [start])] {[start]} with
  | Some (Some p) =>
      path_from_to adj start end_ p /\
      forall q, path_from_to adj start end_ q -> edge_count p <= edge_count q
  | Some None => forall q, ~ path_from_to adj start end_ q
  | None => False
  end.
Proof.
  pose proof (fsp_loop_correct (traversal_fuel adj) _ _ fsp_inv_init) as H.
  destruct (fsp_loop adj end_ (traversal_fuel adj) [(start, [start])] {[start]})
    as [[p|]|].
  - destruct H as [Hp Hmin].
    { pose proof universe_size.
      assert (size (universe adj ∖ {[start]}) <= size (universe adj))
        by (apply subseteq_size, subseteq_difference_l; done).
      simpl. lia. }
    split; [by apply walk_path|].
    intros q Hq%path_walk. specialize (Hmin q Hq). unfold edge_count. lia.
  - intros q Hq%path_walk. revert q Hq. apply H.
    pose proof universe_size.
    assert (size (universe adj ∖ {[start]}) <= size (universe adj))
      by (apply subseteq_size, subseteq_difference_l; done).
    simpl. lia.
  - apply H. pose proof universe_size.
    assert (size (universe adj ∖ {[start]}) <= size (universe adj))
      by (apply subseteq_size, subseteq_difference_l; done).
    simpl. lia.
Qed.
End shortest_path.

Lemma run_loop_state {A} (r : option A) (g : Graph) :
  state_after (run_loop r g) = g.
Proof. by destruct r. Qed.

Lemma find_shortest_path_spec start end_ adj d :
  find_shortest_path start end_ (mkGraph adj d)
  = if bool_decide (is_Some (adj !! start)) && bool_decide (is_Some (adj !! end_))
    then run_loop (fsp_loop adj end_ (traversal_fuel adj)
                     [(start, [start])] {[start]}) (mkGraph adj d)
    else (Raised ValueError_start_end, mkGraph adj d).
Proof.
  unfold find_shortest_path. unfold bind at 1. rewrite contains_spec.
  unfold bind at 1. rewrite contains_spec.
  destruct (bool_decide (is_Some (adj !! start)));
    destruct (bool_decide (is_Some (adj !! end_))); done.
Qed.

Lemma depth_first_search_spec start adj d :
  depth_first_search start (mkGraph adj d)
  = if bool_decide (is_Some (adj !! start))
    then run_loop (dfs_loop adj (traversal_fuel adj) [] [start]) (mkGraph adj d)
    else (Raised (ValueError_node start), mkGraph adj d).
Proof.
  unfold depth_first_search. unfold bind at 1. rewrite contains_spec.
  by destruct (bool_decide (is_Some (adj !! start))).
Qed.

Lemma breadth_first_search_spec start adj d :
  breadth_first_search start (mkGraph adj d)
  = if bool_decide (is_Some (adj !! start))
    then run_loop (bfs_loop adj (traversal_fuel adj) [] [start]) (mkGraph adj d)
    else (Raised (ValueError_node start), mkGraph adj d).
Proof.
  unfold breadth_first_search. unfold bind at 1. rewrite contains_spec.
  by destruct (bool_decide (is_Some (adj !! start))).
Qed.

(** The scenario of the specification: on the edges
    [(1,2),(2,3),(3,4),(1,4)] the path found from 1 to 3 goes through 2. *)
Example find_shortest_path_scenario :
  result (find_shortest_path (NInt 1) (NInt 3)
    (__init__ [(NInt 1, NInt 2); (NInt 2, NInt 3);
               (NInt 3, NInt 4); (NInt 1, NInt 4)] false))
  = Returned (Some [NInt 1; NInt 2; NInt 3]).
Proof. vm_compute. reflexivity. Qed.

Lemma preserves_raises_atomically {A} (m : M A) :
  preserves_state m -> raises_atomically m.
Proof. intros H g e _. apply H. Qed.

Section frame.
Implicit Types (node start : Node) (edge : Edge).

Lemma has_node_preserves node : preserves_state (has_node node).
Proof. by intros [adj d]. Qed.

Lemma has_edge_preserves edge : preserves_state (has_edge edge).
Proof. destruct edge as [a b]. intros [adj d]. by rewrite has_edge_spec. Qed.

Lemma indegree_preserves node : preserves_state (indegree node).
Proof. intros [adj d]. rewrite indegree_spec. by case_bool_decide. Qed.

Lemma outdegree_preserves node : preserves_state (outdegree node).
Proof. intros [adj d]. rewrite outdegree_spec. by case_bool_decide. Qed.

Lemma get_neighbors_preserves node : preserves_state (get_neighbors node).
Proof. intros [adj d]. rewrite get_neighbors_spec. by case_bool_decide. Qed.

Lemma depth_first_search_preserves start :
  preserves_state (depth_first_search start).
Proof.
  intros [adj d]. rewrite depth_first_search_spec.
  case_bool_decide; [apply run_loop_state|done].
Qed.

Lemma breadth_first_search_preserves start :
  preserves_state (breadth_first_search start).
Proof.
  intros [adj d]. rewrite breadth_first_search_spec.
  case_bool_decide; [apply run_loop_state|done].
Qed.

Lemma find_shortest_path_preserves start (end_ : Node) :
  preserves_state (find_shortest_path start end_).
Proof.
  intros [adj d]. rewrite find_shortest_path_spec.
  destruct (_ && _); [apply run_loop_state|done].
Qed.

Lemma depth_first_search_terminates start : terminates (depth_first_search start).
Proof.
  intros [adj d]. rewrite depth_first_search_spec.
  case_bool_decide; [|done].
  by destruct (dfs_loop_returns adj start) as [l ->].
Qed.

Lemma breadth_first_search_terminates start :
  terminates (breadth_first_search start).
Proof.
  intros [adj d]. rewrite breadth_first_search_spec.
  case_bool_decide; [|done].
  by destruct (bfs_loop_returns adj start) as [l ->].
Qed.

Lemma find_shortest_path_terminates start (end_ : Node) :
  terminates (find_shortest_path start end_).
Proof.
  intros [adj d]. rewrite find_shortest_path_spec.
  destruct (_ && _); [|done].
  pose proof (fsp_loop_returns adj start end_) as H.
  by destruct (fsp_loop adj end_ (traversal_fuel adj) [(start, [start])] {[start]}).
Qed.

Lemma remove_node_raises_atomically node : raises_atomically (remove_node node).
Proof.
  intros [adj d] e. destruct (adj !! node) as [l|] eqn:E.
  - by rewrite remove_node_present by eauto.
  - by rewrite remove_node_absent.
Qed.

Lemma remove_edge_raises_atomically edge : raises_atomically (remove_edge edge).
Proof.
  destruct edge as [a b]. intros [adj d] e.
  destruct (edge_present a b adj) eqn:E.
  - by rewrite remove_edge_present.
  - by rewrite remove_edge_absent.
Qed.
End frame.

(** ** The textual representation of a graph that does not mix node kinds *)

Lemma item_lt_same_kind (x y : Node * list Node) :
  x.1 ≠ y.1 -> same_kind x.1 y.1 = true -> is_Some (item_lt x y).
Proof.
  intros Hne Hk. unfold item_lt. rewrite decide_False by done.
  destruct x as [[?|?] ?], y as [[?|?] ?]; simpl in *; by eauto.
Qed.

Lemma sorted_insert_returns (x : Node * list Node) (l : list (Node * list Node)) :
  (forall y, y ∈ l -> is_Some (item_lt x y)) ->
  exists l', sorted_insert x l = Some l' /\ l' ≡ₚ x :: l.
Proof.
  induction l as [|y l IH]; intros Hcmp; [by exists [x]|].
  cbn [sorted_insert].
  destruct (Hcmp y) as [b Hb]; [apply elem_of_cons; by left|]. rewrite Hb.
  destruct b; [by eexists|].
  destruct IH as (l' & -> & Hperm).
  { intros z Hz. apply Hcmp, elem_of_cons. by right. }
  exists (y :: l'). split; [done|]. rewrite Hperm. apply Permutation_swap.
Qed.

Lemma sorted_returns (items : list (Node * list Node)) :
  NoDup items.*1 ->
  (forall a b, a ∈ items.*1 -> b ∈ items.*1 -> same_kind a b = true) ->
  exists l, sorted items = Some l /\ l ≡ₚ items.
Proof.
  unfold sorted.
  assert (forall acc : list (Node * list Node),
    NoDup (acc ++ items).*1 ->
    (forall a b, a ∈ (acc ++ items).*1 -> b ∈ (acc ++ items).*1 ->
                 same_kind a b = true) ->
    exists l, foldl (fun acc x => acc ≫= sorted_insert x) (Some acc) items
              = Some l /\ l ≡ₚ acc ++ items) as Hgen.
  { induction items as [|x items IH]; intros acc Hnd Hk.
    { exists acc. by rewrite app_nil_r. }
    cbn [foldl mbind option_bind].
    destruct (sorted_insert_returns x acc) as (acc' & -> & Hperm).
    { intros y Hy. apply item_lt_same_kind.
      - rewrite fmap_app, fmap_cons in Hnd.
        apply NoDup_app in Hnd as (_ & Hdis & _).
        intros Heq. apply (Hdis y.1); [by apply list_elem_of_fmap_2|].
        rewrite <- Heq. apply elem_of_cons. by left.
      - apply Hk; apply list_elem_of_fmap_2, elem_of_app.
        + right. apply elem_of_cons. by left.
        + by left. }
    assert (acc' ++ items ≡ₚ acc ++ x :: items) as Hall.
    { rewrite Hperm. simpl. apply Permutation_middle. }
    destruct (IH acc') as (l & -> & Hl).
    - by rewrite Hall.
    - intros a b Ha Hb. apply Hk; by rewrite <- Hall.
    - exists l. split; [done|]. by rewrite Hl. }
  intros Hnd Hk. apply (Hgen []); done.
Qed.

(** When all nodes of the graph are integers, or all are strings,
    [__str__] returns the rendering of the items in some order. *)
Lemma str_returns_without_mixing (g : Graph) :
  (forall a b, is_Some (adjacency_list g !! a) ->
               is_Some (adjacency_list g !! b) -> same_kind a b = true) ->
  exists items,
    items ≡ₚ map_to_list (adjacency_list g) /\
    __str__ g = (Returned (join (String (ascii_of_nat 10) EmptyString)
                                (render_line <$> items)), g).
Proof.
  intros Hk. destruct g as [adj d]. cbn [adjacency_list] in *.
  destruct (sorted_returns (map_to_list adj)) as (items & Hs & Hperm).
  - apply NoDup_fst_map_to_list.
  - intros a b [[a' la] [-> Ha]]%list_elem_of_fmap
                [[b' lb] [-> Hb]]%list_elem_of_fmap.
    apply elem_of_map_to_list in Ha, Hb. apply Hk; by eexists.
  - exists items. split; [done|].
    unfold __str__, bind, get_adjacency. cbn [adjacency_list]. by rewrite Hs.
Qed.

(** The scenario of the specification for breadth-first search. *)
Example breadth_first_search_scenario :
  result (breadth_first_search (NInt 1)
    (__init__ [(NInt 1, NInt 2); (NInt 2, NInt 3);
               (NInt 3, NInt 4); (NInt 1, NInt 4)] false))
  = Returned [NInt 1; NInt 2; NInt 4; NInt 3].
Proof. vm_compute. reflexivity. Qed.

(** * The claims *)

(** C1: in an undirected graph, after construction and after every call of
    [add_node], [add_edge], [remove_node] and [remove_edge], any two present
    nodes [A] and [B] have neighbour sequences, and [B] is in that of [A]
    exactly when [A] is in that of [B]. *)
Theorem undirected_symmetric_closure (g : Graph) (A B : Node) :
  reachable false g ->
  result (has_node A g) = Returned true ->
  result (has_node B g) = Returned true ->
  exists la lb,
    result (get_neighbors A g) = Returned la /\
    result (get_neighbors B g) = Returned lb /\
    (B ∈ la <-> A ∈ lb).
Proof.
  intros Hr HA HB. destruct (reachable_inv _ _ Hr) as [_ _ Hs].
  destruct g as [adj d]. simpl in Hs.
  unfold has_node in HA, HB. rewrite contains_spec in HA, HB.
  simpl in HA, HB. injection HA as HA. injection HB as HB.
  exists (adj_get adj A), (adj_get adj B).
  rewrite !get_neighbors_spec, HA, HB. split; [done|]. split; [done|].
  split; apply Hs; done.
Qed.

Lemma undirected_symmetric_closure_witness :
  exists la lb,
    result (get_neighbors (NInt 1) (__init__ [(NInt 1, NInt 2)] false)) = Returned la /\
    result (get_neighbors (NInt 2) (__init__ [(NInt 1, NInt 2)] false)) = Returned lb /\
    (NInt 2 ∈ la <-> NInt 1 ∈ lb).
Proof.
  apply (undirected_symmetric_closure (__init__ [(NInt 1, NInt 2)] false)
           (NInt 1) (NInt 2)).
  - apply reachable_init.
  - vm_compute. reflexivity.
  - vm_compute. reflexivity.
Defined.

(** C2: for [start] and [end_] both in the graph, [find_shortest_path]
    returns a path from [start] to [end_] with the least number of edges
    whenever there is a path at all, returns [None] when there is none, and
    returns [[start]] when [start] is [end_]. *)
Theorem find_shortest_path_correct (g : Graph) (start end_ : Node) :
  result (has_node start g) = Returned true ->
  result (has_node end_ g) = Returned true ->
  ((exists q, path_from_to (adjacency_list g) start end_ q) ->
   exists p,
     result (find_shortest_path start end_ g) = Returned (Some p) /\
     path_from_to (adjacency_list g) start end_ p /\
     forall q, path_from_to (adjacency_list g) start end_ q ->
               edge_count p <= edge_count q) /\
  ((forall q, ~ path_from_to (adjacency_list g) start end_ q) ->
   result (find_shortest_path start end_ g) = Returned None) /\
  (start = end_ ->
   result (find_shortest_path start end_ g) = Returned (Some [start])).
Proof.
  destruct g as [adj d]. unfold has_node. rewrite !contains_spec.
  cbn [result fst adjacency_list]. intros [= Hs] [= He].
  rewrite find_shortest_path_spec, Hs, He. cbn [andb].
  pose proof (fsp_loop_returns adj start end_) as Hloop.
  split; [|split].
  - intros [q Hq].
    destruct (fsp_loop adj end_ (traversal_fuel adj) [(start, [start])] {[start]})
      as [[p|]|]; [|by destruct (Hloop q)|done].
    exists p. by destruct Hloop.
  - intros Hnone.
    destruct (fsp_loop adj end_ (traversal_fuel adj) [(start, [start])] {[start]})
      as [[p|]|]; [|done|done].
    destruct Hloop as [Hp _]. by destruct (Hnone p).
  - intros <-. unfold traversal_fuel. cbn [fsp_loop].
    by rewrite decide_True.
Qed.

Lemma find_shortest_path_correct_witness :
  ((exists q, path_from_to
      (adjacency_list (__init__ [(NInt 1, NInt 2); (NInt 2, NInt 3);
                                  (NInt 3, NInt 4); (NInt 1, NInt 4)] false))
      (NInt 1) (NInt 3) q) ->
   exists p,
     result (find_shortest_path (NInt 1) (NInt 3)
       (__init__ [(NInt 1, NInt 2); (NInt 2, NInt 3);
                  (NInt 3, NInt 4); (NInt 1, NInt 4)] false))
     = Returned (Some p) /\
     path_from_to
       (adjacency_list (__init__ [(NInt 1, NInt 2); (NInt 2, NInt 3);
                                   (NInt 3, NInt 4); (NInt 1, NInt 4)] false))
       (NInt 1) (NInt 3) p /\
     forall q, path_from_to
       (adjacency_list (__init__ [(NInt 1, NInt 2); (NInt 2, NInt 3);
                                   (NInt 3, NInt 4); (NInt 1, NInt 4)] false))
       (NInt 1) (NInt 3) q -> edge_count p <= edge_count q) /\
  ((forall q, ~ path_from_to
      (adjacency_list (__init__ [(NInt 1, NInt 2); (NInt 2, NInt 3);
                                  (NInt 3, NInt 4); (NInt 1, NInt 4)] false))
      (NInt 1) (NInt 3) q) ->
   result (find_shortest_path (NInt 1) (NInt 3)
     (__init__ [(NInt 1, NInt 2); (NInt 2, NInt 3);
                (NInt 3, NInt 4); (NInt 1, NInt 4)] false))
   = Returned None) /\
  (NInt 1 = NInt 3 ->
   result (find_shortest_path (NInt 1) (NInt 3)
     (__init__ [(NInt 1, NInt 2); (NInt 2, NInt 3);
                (NInt 3, NInt 4); (NInt 1, NInt 4)] false))
   = Returned (Some [NInt 1])).
Proof.
  apply (find_shortest_path_correct
           (__init__ [(NInt 1, NInt 2); (NInt 2, NInt 3);
                      (NInt 3, NInt 4); (NInt 1, NInt 4)] false)
           (NInt 1) (NInt 3)).
  - vm_compute. reflexivity.
  - vm_compute. reflexivity.
Defined.

(** C3: [add_edge] is idempotent on the state of every graph: a second call
    with the same edge returns and leaves the state of the first call, hence
    the length of every neighbour sequence; and in a graph built through the
    constructor and the mutating methods no neighbour sequence repeats a
    node. *)
Theorem add_edge_idempotent :
  (forall (g : Graph) (edge : Edge),
     add_edge edge (state_after (add_edge edge g))
     = (Returned tt, state_after (add_edge edge g))) /\
  (forall (g : Graph) (edge : Edge) (node : Node),
     length (adj_get (adjacency_list
               (state_after (add_edge edge (state_after (add_edge edge g))))) node)
     = length (adj_get (adjacency_list (state_after (add_edge edge g))) node)) /\
  (forall (d : bool) (g : Graph) (node : Node) (l : list Node),
     reachable d g -> adjacency_list g !! node = Some l -> NoDup l).
Proof.
  assert (forall g edge,
     add_edge edge (state_after (add_edge edge g))
     = (Returned tt, state_after (add_edge edge g))) as Hidem.
  { intros [adj d] [a b]. rewrite add_edge_spec. unfold state_after.
    cbn [snd]. by rewrite add_edge_spec, add_edge_adj_idempotent. }
  split; [done|]. split.
  - intros g edge node. by rewrite Hidem.
  - intros d g node l Hr E. destruct (reachable_inv _ _ Hr) as [_ [Hnd _] _].
    specialize (Hnd node). by rewrite (adj_get_Some _ _ _ E) in Hnd.
Qed.

Lemma add_edge_idempotent_witness :
  adjacency_list
    (__init__ [(NInt 1, NInt 2); (NInt 1, NInt 3); (NInt 1, NInt 2)] false)
    !! NInt 1 = Some [NInt 2; NInt 3] /\
  NoDup [NInt 2; NInt 3].
Proof.
  split; [vm_compute; reflexivity|].
  apply (proj2 (proj2 add_edge_idempotent) false
           (__init__ [(NInt 1, NInt 2); (NInt 1, NInt 3); (NInt 1, NInt 2)] false)
           (NInt 1) [NInt 2; NInt 3]).
  - apply reachable_init.
  - vm_compute. reflexivity.
Defined.

(** C4: each of [remove_node], [remove_edge], [indegree], [outdegree],
    [get_neighbors], [depth_first_search], [breadth_first_search] and
    [find_shortest_path], on every graph and every argument, leaves the graph
    exactly as it was whenever it raises. *)
Theorem errors_leave_graph_unchanged :
  (forall node, raises_atomically (remove_node node)) /\
  (forall edge, raises_atomically (remove_edge edge)) /\
  (forall node, raises_atomically (indegree node)) /\
  (forall node, raises_atomically (outdegree node)) /\
  (forall node, raises_atomically (get_neighbors node)) /\
  (forall start, raises_atomically (depth_first_search start)) /\
  (forall start, raises_atomically (breadth_first_search start)) /\
  (forall start end_, raises_atomically (find_shortest_path start end_)).
Proof.
  repeat split; intros.
  - apply remove_node_raises_atomically.
  - apply remove_edge_raises_atomically.
  - apply preserves_raises_atomically, indegree_preserves.
  - apply preserves_raises_atomically, outdegree_preserves.
  - apply preserves_raises_atomically, get_neighbors_preserves.
  - apply preserves_raises_atomically, depth_first_search_preserves.
  - apply preserves_raises_atomically, breadth_first_search_preserves.
  - apply preserves_raises_atomically, find_shortest_path_preserves.
Qed.

Lemma errors_leave_graph_unchanged_witness :
  state_after (remove_edge (NInt 2, NInt 1)
                 (__init__ [(NInt 1, NInt 2)] true))
  = __init__ [(NInt 1, NInt 2)] true.
Proof.
  apply (proj1 (proj2 errors_leave_graph_unchanged) (NInt 2, NInt 1)
           (__init__ [(NInt 1, NInt 2)] true)
           (ValueError_edge (NInt 2, NInt 1))).
  vm_compute. reflexivity.
Defined.

(** C5: [remove_edge((node1, node2))] raises exactly when [node1] is absent,
    [node2] is absent, or [node2] is not in the neighbour sequence of
    [node1]; the sequence of [node2] plays no part in the check. Otherwise
    it returns: [node2] is dropped from the sequence of [node1], and in an
    undirected graph [node1] is dropped from the sequence of [node2] when it
    is there, and nothing else happens when it is not. *)
Theorem remove_edge_check (g : Graph) (node1 node2 : Node) :
  let adj := adjacency_list g in
  let r := remove_edge (node1, node2) g in
  let adj1 := <[node1 := drop_first node2 (adj_get adj node1)]> adj in
  (result r = Raised (ValueError_edge (node1, node2)) <->
     result (has_node node1 g) = Returned false \/
     result (has_node node2 g) = Returned false \/
     node2 ∉ adj_get adj node1) /\
  (result r = Raised (ValueError_edge (node1, node2)) \/ result r = Returned tt) /\
  (result r = Returned tt ->
     directed (state_after r) = directed g /\
     adjacency_list (state_after r)
     = if directed g then adj1
       else if list_in node1 (adj_get adj1 node2)
            then <[node2 := drop_first node1 (adj_get adj1 node2)]> adj1
            else adj1).
Proof.
  destruct g as [adj d]. cbn zeta. cbn [adjacency_list directed].
  unfold has_node. rewrite !contains_spec. cbn [result fst].
  destruct (edge_present node1 node2 adj) eqn:E.
  - rewrite remove_edge_present by done. cbn [result state_after fst snd].
    apply edge_present_true in E as (l & El & Hb & Hin).
    rewrite (adj_get_Some _ _ _ El).
    split; [|split; [by right|]].
    + split; [done|]. intros [H|[H|H]]; [| |done].
      * injection H as H. apply bool_decide_eq_false in H. destruct H. eauto.
      * injection H as H. by apply bool_decide_eq_false in H.
    + intros _. split; [done|].
      unfold remove_edge_adj.
      assert (remove_arc node1 node2 adj
              = <[node1:=drop_first node2 l]> adj) as ->.
      { unfold remove_arc. rewrite El.
        apply list_in_true in Hin. by rewrite Hin. }
      destruct d; [done|].
      set (adj1 := <[node1:=drop_first node2 l]> adj).
      unfold remove_arc, adj_get.
      destruct (adj1 !! node2) as [l2|] eqn:E2; simpl; done.
  - rewrite remove_edge_absent by done. cbn [result state_after fst snd].
    split; [|split; [by left|done]].
    split; [|done]. intros _.
    unfold edge_present in E. apply andb_false_iff in E as [E|E].
    + apply andb_false_iff in E as [E|E]; rewrite E; auto.
    + right. right. by apply list_in_false.
Qed.

Lemma remove_edge_check_witness :
  directed (state_after (remove_edge (NInt 1, NInt 2)
              (__init__ [(NInt 1, NInt 2)] false))) = false /\
  adjacency_list (state_after (remove_edge (NInt 1, NInt 2)
              (__init__ [(NInt 1, NInt 2)] false)))
  = <[NInt 2 := []]> (<[NInt 1 := []]>
      (adjacency_list (__init__ [(NInt 1, NInt 2)] false))).
Proof.
  apply (proj2 (proj2 (remove_edge_check
           (__init__ [(NInt 1, NInt 2)] false) (NInt 1) (NInt 2)))).
  vm_compute. reflexivity.
Defined.



(** C7: in an undirected graph built through the constructor and the
    mutating methods, [indegree(x)] and [outdegree(x)] return the same number
    for every node [x] of the graph, self-loops included. *)
Theorem undirected_indegree_outdegree (g : Graph) (x : Node) :
  reachable false g ->
  result (has_node x g) = Returned true ->
  exists n : nat,
    result (indegree x g) = Returned n /\
    result (outdegree x g) = Returned n.
Proof.
  intros Hr Hx. destruct (reachable_inv _ _ Hr) as [_ Hok Hs].
  destruct g as [adj d]. cbn [adjacency_list] in *.
  unfold has_node in Hx. rewrite contains_spec in Hx.
  cbn [result fst] in Hx. injection Hx as Hx.
  exists (length (adj_get adj x)).
  rewrite indegree_spec, outdegree_spec, Hx. cbn [result fst].
  split; [|done]. f_equal. apply count_in_symmetric; auto.
Qed.

Lemma undirected_indegree_outdegree_witness :
  exists n : nat,
    result (indegree (NInt 1)
              (__init__ [(NInt 1, NInt 1); (NInt 1, NInt 2)] false)) = Returned n /\
    result (outdegree (NInt 1)
              (__init__ [(NInt 1, NInt 1); (NInt 1, NInt 2)] false)) = Returned n.
Proof.
  apply (undirected_indegree_outdegree
           (__init__ [(NInt 1, NInt 1); (NInt 1, NInt 2)] false) (NInt 1)).
  - apply reachable_init.
  - vm_compute. reflexivity.
Defined.

(** C8: on the undirected graph of the edges [(1,2),(1,3),(2,4)], where the
    neighbours of 1 are listed as 2 then 3, [depth_first_search(1)] returns
    [1, 2, 4, 3]: the neighbours are pushed in reverse, so that the one
    listed first is popped and explored first. *)
Theorem depth_first_search_scenario :
  result (get_neighbors (NInt 1)
    (__init__ [(NInt 1, NInt 2); (NInt 1, NInt 3); (NInt 2, NInt 4)] false))
  = Returned [NInt 2; NInt 3] /\
  result (depth_first_search (NInt 1)
    (__init__ [(NInt 1, NInt 2); (NInt 1, NInt 3); (NInt 2, NInt 4)] false))
  = Returned [NInt 1; NInt 2; NInt 4; NInt 3].
Proof. split; vm_compute; reflexivity. Qed.

(** C9, at a graph that mixes an integer and a string: [sorted] compares
    the two keys and the call raises [TypeError]; no text is returned. *)
Theorem str_of_mixed_graph_raises :
  result (__str__ (__init__ [(NInt 1, NStr "a")] false)) = Raised TypeError.
Proof. vm_compute. reflexivity. Qed.

(** C10: [has_node], [has_edge], [indegree], [outdegree], [get_neighbors],
    [depth_first_search], [breadth_first_search] and [find_shortest_path]
    leave the graph (the dictionary with every neighbour sequence, and the
    flag) exactly as it was, on every graph and every argument; and the three
    traversals do end. *)
Theorem queries_leave_graph_unchanged :
  (forall node, preserves_state (has_node node)) /\
  (forall edge, preserves_state (has_edge edge)) /\
  (forall node, preserves_state (indegree node)) /\
  (forall node, preserves_state (outdegree node)) /\
  (forall node, preserves_state (get_neighbors node)) /\
  (forall start, preserves_state (depth_first_search start)
                 /\ terminates (depth_first_search start)) /\
  (forall start, preserves_state (breadth_first_search start)
                 /\ terminates (breadth_first_search start)) /\
  (forall start end_, preserves_state (find_shortest_path start end_)
                      /\ terminates (find_shortest_path start end_)).
Proof.
  split; [apply has_node_preserves|].
  split; [apply has_edge_preserves|].
  split; [apply indegree_preserves|].
  split; [apply outdegree_preserves|].
  split; [apply get_neighbors_preserves|].
  split; [|split]; intros; split.
  - apply depth_first_search_preserves.
  - apply depth_first_search_terminates.
  - apply breadth_first_search_preserves.
  - apply breadth_first_search_terminates.
  - apply find_shortest_path_preserves.
  - apply find_shortest_path_terminates.
Qed.

(** * Further properties of the methods *)

(** ** Edges and nodes after [add_node] and [add_edge] *)

Lemma edge_present_iff a b (adj : gmap Node (list Node)) :
  edge_present a b adj = true <-> is_Some (adj !! b) /\ b ∈ adj_get adj a.
Proof.
  rewrite edge_present_true. split.
  - intros (l & E & Hb & Hin). by rewrite (adj_get_Some _ _ _ E).
  - intros [Hb Hin]. destruct (elem_of_adj_get_key _ _ _ Hin) as [l E].
    exists l. by rewrite (adj_get_Some _ _ _ E) in Hin.
Qed.

Lemma edge_present_closed a b (adj : gmap Node (list Node)) :
  adj_ok adj -> edge_present a b adj = true <-> b ∈ adj_get adj a.
Proof.
  intros [_ Hcl]. rewrite edge_present_iff. split; [by intros [_ ?]|].
  intros Hin. split; [by apply (Hcl a)|done].
Qed.

Lemma keys_add_edge d a b (adj : gmap Node (list Node)) k :
  is_Some (add_edge_adj d a b adj !! k) <->
  k = a \/ k = b \/ is_Some (adj !! k).
Proof.
  unfold add_edge_adj. destruct d; rewrite ?keys_add_arc, !keys_add_node; tauto.
Qed.

Lemma elem_of_add_edge d a b (adj : gmap Node (list Node)) k x :
  x ∈ adj_get (add_edge_adj d a b adj) k <->
  x ∈ adj_get adj k \/ (k = a /\ x = b) \/ (d = false /\ k = b /\ x = a).
Proof.
  unfold add_edge_adj.
  set (adj2 := add_node_adj b (add_node_adj a adj)).
  assert (Ha : is_Some (adj2 !! a)).
  { apply add_node_adj_is_Some, add_node_adj_lookup_eq. }
  assert (Hb : is_Some (adj2 !! b)) by apply add_node_adj_lookup_eq.
  assert (Hget : adj_get adj2 k = adj_get adj k).
  { unfold adj2. by rewrite !adj_get_add_node. }
  destruct d; rewrite !elem_of_add_arc, ?keys_add_arc, Hget.
  - split; [intros [?|(? & ? & _)]; auto|].
    intros [?|[[? ?]|(? & _)]]; [by left|by right|done].
  - split.
    + intros [[?|(? & ? & _)]|(? & ? & _)]; auto.
    + intros [?|[[? ?]|(_ & ? & ?)]]; [by left; left|left; by right|by right].
Qed.

(** [add_edge((a, b))] never raises; afterwards both nodes are in the graph
    and [has_edge((a, b))] holds, and so does [has_edge((b, a))] when the
    graph is undirected. *)
Theorem add_edge_adds (g : Graph) (a b : Node) :
  result (add_edge (a, b) g) = Returned tt /\
  directed (state_after (add_edge (a, b) g)) = directed g /\
  result (has_node a (state_after (add_edge (a, b) g))) = Returned true /\
  result (has_node b (state_after (add_edge (a, b) g))) = Returned true /\
  result (has_edge (a, b) (state_after (add_edge (a, b) g))) = Returned true /\
  (directed g = false ->
   result (has_edge (b, a) (state_after (add_edge (a, b) g))) = Returned true).
Proof.
  destruct g as [adj d]. rewrite add_edge_spec.
  cbn [result state_after fst snd directed adjacency_list].
  unfold has_node. rewrite !contains_spec, !has_edge_spec. cbn [result fst].
  assert (Hka : is_Some (add_edge_adj d a b adj !! a)).
  { apply keys_add_edge. by left. }
  assert (Hkb : is_Some (add_edge_adj d a b adj !! b)).
  { apply keys_add_edge. right. by left. }
  rewrite !bool_decide_true by done.
  split; [done|]. split; [done|]. split; [done|]. split; [done|]. split.
  - f_equal. apply edge_present_iff. split; [done|].
    apply elem_of_add_edge. right. by left.
  - intros ->. f_equal. apply edge_present_iff. split; [done|].
    apply elem_of_add_edge. right. by right.
Qed.

Lemma add_edge_adds_witness :
  result (has_edge (NInt 2, NInt 1)
            (state_after (add_edge (NInt 1, NInt 2) (__init__ [] false))))
  = Returned true.
Proof.
  apply (proj2 (proj2 (proj2 (proj2 (proj2
           (add_edge_adds (__init__ [] false) (NInt 1) (NInt 2))))))).
  vm_compute. reflexivity.
Defined.

(** In a graph built through the constructor and the mutating methods,
    [add_edge((a, b))] changes the answer of [has_edge] for the pair
    [(a, b)] only, and for [(b, a)] too when the graph is undirected: a
    directed graph does not gain the reverse edge. *)
Theorem add_edge_other_edges (d : bool) (g : Graph) (a b c e : Node) :
  reachable d g ->
  result (has_edge (c, e) (state_after (add_edge (a, b) g)))
  = Returned (edge_present c e (adjacency_list g)
              || bool_decide ((c, e) = (a, b))
              || negb d && bool_decide ((c, e) = (b, a))).
Proof.
  intros Hr. destruct (reachable_inv _ _ Hr) as [Hd Hok _].
  destruct g as [adj d']. cbn [directed adjacency_list] in *. subst d'.
  rewrite add_edge_spec. cbn [state_after snd]. rewrite has_edge_spec.
  cbn [result fst]. f_equal. apply eq_true_iff_eq.
  rewrite (edge_present_closed _ _ _ (adj_ok_add_edge d a b adj Hok)).
  rewrite elem_of_add_edge, !orb_true_iff, andb_true_iff, negb_true_iff,
    !bool_decide_eq_true, (edge_present_closed _ _ _ Hok).
  split.
  - intros [?|[[-> ->]|(-> & -> & ->)]]; auto.
  - intros [[?|[= -> ->]]|[-> [= -> ->]]]; auto.
Qed.

Lemma add_edge_other_edges_witness :
  result (has_edge (NInt 2, NInt 1)
            (state_after (add_edge (NInt 1, NInt 2) (__init__ [] true))))
  = Returned (edge_present (NInt 2) (NInt 1) (adjacency_list (__init__ [] true))
              || bool_decide ((NInt 2, NInt 1) = (NInt 1, NInt 2))
              || negb true && bool_decide ((NInt 2, NInt 1) = (NInt 2, NInt 1))).
Proof.
  apply (add_edge_other_edges true (__init__ [] true)
           (NInt 1) (NInt 2) (NInt 2) (NInt 1)).
  apply reachable_init.
Defined.

(** [add_node(node)] never raises and leaves [node] in the graph. It does
    nothing when [node] is there already; a new node has no neighbours, and
    the neighbours of every other node stay as they were. *)
Theorem add_node_effect (g : Graph) (node : Node) :
  result (add_node node g) = Returned tt /\
  result (has_node node (state_after (add_node node g))) = Returned true /\
  (result (has_node node g) = Returned true ->
   state_after (add_node node g) = g) /\
  (result (has_node node g) = Returned false ->
   result (get_neighbors node (state_after (add_node node g))) = Returned [] /\
   forall other, other <> node ->
     result (get_neighbors other (state_after (add_node node g)))
     = result (get_neighbors other g) /\
     result (has_node other (state_after (add_node node g)))
     = result (has_node other g)).
Proof.
  destruct g as [adj d]. rewrite add_node_spec.
  cbn [result state_after fst snd]. unfold has_node.
  rewrite !contains_spec. cbn [result fst].
  split; [done|]. split; [|split].
  - by rewrite bool_decide_true by apply add_node_adj_lookup_eq.
  - intros [= Hn%bool_decide_eq_true]. by rewrite add_node_adj_id.
  - intros [= Hn%bool_decide_eq_false].
    assert (adj !! node = None) as E.
    { destruct (adj !! node) eqn:E; [|done]. destruct Hn. by eexists. }
    split.
    + rewrite get_neighbors_spec.
      rewrite bool_decide_true by apply add_node_adj_lookup_eq.
      cbn [result fst]. by rewrite adj_get_add_node, (adj_get_None _ _ E).
    + intros other Hne. rewrite !get_neighbors_spec, !contains_spec.
      rewrite adj_get_add_node.
      assert (bool_decide (is_Some (add_node_adj node adj !! other))
              = bool_decide (is_Some (adj !! other))) as ->.
      { apply bool_decide_ext. rewrite keys_add_node. tauto. }
      by destruct (bool_decide (is_Some (adj !! other))).
Qed.

Lemma add_node_effect_witness :
  state_after (add_node (NInt 1) (__init__ [(NInt 1, NInt 2)] false))
  = __init__ [(NInt 1, NInt 2)] false.
Proof.
  apply (proj1 (proj2 (proj2
           (add_node_effect (__init__ [(NInt 1, NInt 2)] false) (NInt 1))))).
  vm_compute. reflexivity.
Defined.

(** ** Calls on a node that is not in the graph *)

(** When [node] is not in the graph, [remove_node], [indegree], [outdegree],
    [get_neighbors], [depth_first_search] and [breadth_first_search] raise
    the [ValueError] that names it, [find_shortest_path] raises with [node] at
    either end, [remove_edge] raises with [node] at either end, and
    [has_edge] answers false instead of raising. *)
Theorem missing_node_raises (g : Graph) (node : Node) :
  result (has_node node g) = Returned false ->
  result (remove_node node g) = Raised (ValueError_node node) /\
  result (indegree node g) = Raised (ValueError_node node) /\
  result (outdegree node g) = Raised (ValueError_node node) /\
  result (get_neighbors node g) = Raised (ValueError_node node) /\
  result (depth_first_search node g) = Raised (ValueError_node node) /\
  result (breadth_first_search node g) = Raised (ValueError_node node) /\
  (forall other,
     result (find_shortest_path node other g) = Raised ValueError_start_end /\
     result (find_shortest_path other node g) = Raised ValueError_start_end /\
     result (remove_edge (node, other) g) = Raised (ValueError_edge (node, other)) /\
     result (remove_edge (other, node) g) = Raised (ValueError_edge (other, node)) /\
     result (has_edge (node, other) g) = Returned false /\
     result (has_edge (other, node) g) = Returned false).
Proof.
  destruct g as [adj d]. unfold has_node. rewrite contains_spec.
  cbn [result fst]. intros [= Hn].
  assert (adj !! node = None) as E.
  { apply bool_decide_eq_false in Hn.
    destruct (adj !! node) eqn:E; [|done]. destruct Hn. by eexists. }
  assert (forall other, edge_present node other adj = false) as Hout.
  { intros other. unfold edge_present. by rewrite Hn. }
  assert (forall other, edge_present other node adj = false) as Hin.
  { intros other. unfold edge_present. by rewrite Hn, andb_false_r. }
  rewrite remove_node_absent, indegree_spec, outdegree_spec, get_neighbors_spec,
    depth_first_search_spec, breadth_first_search_spec, Hn by done.
  repeat (split; [done|]). intros other.
  rewrite !find_shortest_path_spec, Hn, andb_false_r.
  rewrite !remove_edge_absent, !has_edge_spec, Hout, Hin by done. done.
Qed.

Lemma missing_node_raises_witness :
  result (get_neighbors (NInt 3) (__init__ [(NInt 1, NInt 2)] false))
  = Raised (ValueError_node (NInt 3)).
Proof.
  apply (missing_node_raises (__init__ [(NInt 1, NInt 2)] false) (NInt 3)).
  vm_compute. reflexivity.
Defined.

(** When [node] is in the graph, none of [remove_node], [indegree],
    [outdegree], [get_neighbors], [depth_first_search],
    [breadth_first_search] raises, and the traversals end; [outdegree] is the
    length of what [get_neighbors] returns, and [find_shortest_path] between
    two nodes of the graph returns. *)
Theorem present_node_returns (g : Graph) (node : Node) :
  result (has_node node g) = Returned true ->
  result (remove_node node g) = Returned tt /\
  (exists n, result (indegree node g) = Returned n) /\
  (exists l, result (get_neighbors node g) = Returned l /\
             result (outdegree node g) = Returned (length l)) /\
  (exists l, result (depth_first_search node g) = Returned l) /\
  (exists l, result (breadth_first_search node g) = Returned l) /\
  (forall other, result (has_node other g) = Returned true ->
     exists r, result (find_shortest_path node other g) = Returned r).
Proof.
  destruct g as [adj d]. unfold has_node. rewrite !contains_spec.
  cbn [result fst]. intros [= Hn].
  rewrite remove_node_present by (by apply bool_decide_eq_true in Hn).
  rewrite indegree_spec, outdegree_spec, get_neighbors_spec,
    depth_first_search_spec, breadth_first_search_spec, Hn.
  cbn [result fst]. split; [done|]. split; [by eexists|]. split; [by eexists|].
  split; [|split].
  - destruct (dfs_loop_returns adj node) as [l ->]. by eexists.
  - destruct (bfs_loop_returns adj node) as [l ->]. by eexists.
  - intros other [= Ho]. rewrite find_shortest_path_spec, Hn, Ho. cbn [andb].
    pose proof (fsp_loop_returns adj node other) as H.
    destruct (fsp_loop adj other (traversal_fuel adj) [(node, [node])] {[node]})
      as [r|]; [by exists r|done].
Qed.

Lemma present_node_returns_witness :
  exists l, result (depth_first_search (NInt 1)
                      (__init__ [(NInt 1, NInt 2)] false)) = Returned l.
Proof.
  apply (present_node_returns (__init__ [(NInt 1, NInt 2)] false) (NInt 1)).
  vm_compute. reflexivity.
Defined.

(** ** What the constructor builds *)

Lemma init_fold_keys d edges (adj : gmap Node (list Node)) k :
  is_Some (foldl (fun adj e => add_edge_adj d e.1 e.2 adj) adj edges !! k) <->
  is_Some (adj !! k) \/ k ∈ edges.*1 \/ k ∈ edges.*2.
Proof.
  revert adj. induction edges as [|[a b] edges IH]; intros adj.
  { cbn [foldl]. rewrite !fmap_nil, !elem_of_nil. tauto. }
  cbn [foldl]. rewrite IH, keys_add_edge, !fmap_cons, !elem_of_cons.
  cbn [fst snd]. tauto.
Qed.

Lemma init_fold_elem_of d edges (adj : gmap Node (list Node)) k x :
  x ∈ adj_get (foldl (fun adj e => add_edge_adj d e.1 e.2 adj) adj edges) k <->
  x ∈ adj_get adj k \/ (k, x) ∈ edges \/ (d = false /\ (x, k) ∈ edges).
Proof.
  revert adj. induction edges as [|[a b] edges IH]; intros adj.
  { cbn [foldl]. rewrite !elem_of_nil. tauto. }
  cbn [foldl]. rewrite IH, elem_of_add_edge, !elem_of_cons. cbn [fst snd].
  split.
  - intros [[?|[[-> ->]|(? & -> & ->)]]|[?|[? ?]]]; auto.
  - intros [?|[[[= -> ->]|?]|[? [[= -> ->]|?]]]]; auto 6.
Qed.

(** The graph built by [Graph(edges, directed)] has exactly the nodes that
    occur in [edges], and [has_edge((a, b))] holds exactly when [(a, b)] is
    one of [edges], or, in an undirected graph, when [(b, a)] is. *)
Theorem init_contents (edges : list Edge) (d : bool) (a b : Node) :
  directed (__init__ edges d) = d /\
  result (has_node a (__init__ edges d))
  = Returned (bool_decide (a ∈ edges.*1 ++ edges.*2)) /\
  result (has_edge (a, b) (__init__ edges d))
  = Returned (bool_decide ((a, b) ∈ edges)
              || negb d && bool_decide ((b, a) ∈ edges)).
Proof.
  pose proof (init_inv edges d) as [_ Hok _]. revert Hok.
  rewrite init_spec. cbn [adjacency_list directed]. intros Hok.
  split; [done|]. unfold has_node. rewrite contains_spec, has_edge_spec.
  cbn [result fst]. split; f_equal.
  - apply bool_decide_ext. rewrite init_fold_keys, elem_of_app.
    rewrite lookup_empty. split; [intros [[? ?]|?]; done|by right].
  - apply eq_true_iff_eq. rewrite (edge_present_closed _ _ _ Hok).
    rewrite init_fold_elem_of, orb_true_iff, andb_true_iff, negb_true_iff,
      !bool_decide_eq_true.
    unfold adj_get at 1. rewrite lookup_empty. cbn [default].
    rewrite elem_of_nil. tauto.
Qed.

(** An empty edge list gives a graph without nodes. *)
Lemma init_empty (d : bool) (node : Node) :
  result (has_node node (__init__ [] d)) = Returned false.
Proof.
  unfold __init__, has_node. cbn [for_each ret state_after snd].
  rewrite contains_spec. cbn [result fst]. by rewrite lookup_empty.
Qed.

(** ** What [remove_node] and [remove_edge] leave in place *)

Lemma drop_first_filter (x : Node) (l : list Node) :
  NoDup l -> drop_first x l = filter (fun z => z <> x) l.
Proof.
  induction 1 as [|z l Hz Hl IH]; [done|].
  rewrite drop_first_cons, filter_cons.
  destruct (decide (z = x)) as [-> | Hne].
  - rewrite decide_False by (intros H; by apply H).
    rewrite <- IH. by rewrite drop_first_absent.
  - rewrite decide_True by done. by rewrite IH.
Qed.

Lemma drop_first_snoc (x : Node) (l : list Node) :
  x ∉ l -> drop_first x (l ++ [x]) = l.
Proof.
  induction l as [|z l IH]; intros Hx.
  { rewrite app_nil_l, drop_first_cons. by rewrite decide_True. }
  apply not_elem_of_cons in Hx as [Hne Hx].
  rewrite <- app_comm_cons, drop_first_cons.
  rewrite decide_False by done. by rewrite IH.
Qed.

(** After [remove_node(x)] every other node is still in the graph, every
    edge between two other nodes is still there, and no edge has appeared.
    In a graph built through the constructor and the mutating methods the
    neighbours of another node are the ones it had, in the same order,
    without [x]. *)
Theorem remove_node_keeps_others (d : bool) (g : Graph) (x y z : Node) :
  reachable d g ->
  result (has_node x g) = Returned true ->
  y <> x -> z <> x ->
  result (has_node y (state_after (remove_node x g))) = result (has_node y g) /\
  result (has_edge (y, z) (state_after (remove_node x g)))
  = result (has_edge (y, z) g) /\
  (forall l, result (get_neighbors y g) = Returned l ->
     result (get_neighbors y (state_after (remove_node x g)))
     = Returned (filter (fun n => n <> x) l)).
Proof.
  intros Hr Hx Hy Hz. destruct (reachable_inv _ _ Hr) as [_ Hok _].
  destruct g as [adj d']. cbn [adjacency_list] in Hok.
  unfold has_node in *. rewrite contains_spec in Hx. cbn [result fst] in Hx.
  injection Hx as Hx. apply bool_decide_eq_true in Hx.
  rewrite remove_node_present by done. cbn [state_after snd].
  rewrite !contains_spec, !has_edge_spec, !get_neighbors_spec. cbn [result fst].
  assert (forall k, k <> x ->
    bool_decide (is_Some (remove_node_adj x adj !! k))
    = bool_decide (is_Some (adj !! k))) as Hkeys.
  { intros k Hk. apply bool_decide_ext. rewrite keys_remove_node. tauto. }
  rewrite Hkeys by done. split; [done|]. split.
  - f_equal. apply eq_true_iff_eq.
    rewrite (edge_present_closed _ _ _ (adj_ok_remove_node x adj Hok)).
    rewrite (edge_present_closed _ _ _ Hok).
    rewrite elem_of_remove_node by apply Hok. tauto.
  - intros l. destruct (bool_decide (is_Some (adj !! y))); [|done].
    cbn [result fst]. intros [= <-]. f_equal.
    rewrite adj_get_remove_node, decide_False by done.
    apply drop_first_filter, Hok.
Qed.

Lemma remove_node_keeps_others_witness :
  result (has_node (NInt 2)
    (state_after (remove_node (NInt 1)
       (__init__ [(NInt 1, NInt 2); (NInt 2, NInt 3)] false))))
  = result (has_node (NInt 2)
      (__init__ [(NInt 1, NInt 2); (NInt 2, NInt 3)] false)) /\
  result (has_edge (NInt 2, NInt 3)
    (state_after (remove_node (NInt 1)
       (__init__ [(NInt 1, NInt 2); (NInt 2, NInt 3)] false))))
  = result (has_edge (NInt 2, NInt 3)
      (__init__ [(NInt 1, NInt 2); (NInt 2, NInt 3)] false)) /\
  (forall l,
     result (get_neighbors (NInt 2)
       (__init__ [(NInt 1, NInt 2); (NInt 2, NInt 3)] false)) = Returned l ->
     result (get_neighbors (NInt 2)
       (state_after (remove_node (NInt 1)
          (__init__ [(NInt 1, NInt 2); (NInt 2, NInt 3)] false))))
     = Returned (filter (fun n => n <> NInt 1) l)).
Proof.
  apply (remove_node_keeps_others false
           (__init__ [(NInt 1, NInt 2); (NInt 2, NInt 3)] false)
           (NInt 1) (NInt 2) (NInt 3)).
  - apply reachable_init.
  - vm_compute. reflexivity.
  - discriminate.
  - discriminate.
Defined.

Lemma keys_remove_edge d a b (adj : gmap Node (list Node)) k :
  is_Some (remove_edge_adj d a b adj !! k) <-> is_Some (adj !! k).
Proof.
  unfold remove_edge_adj. destruct d; by rewrite ?keys_remove_arc.
Qed.

Lemma elem_of_remove_edge d a b (adj : gmap Node (list Node)) k x :
  adj_ok adj ->
  x ∈ adj_get (remove_edge_adj d a b adj) k <->
  x ∈ adj_get adj k /\ ~ (k = a /\ x = b) /\ ~ (d = false /\ k = b /\ x = a).
Proof.
  intros Hok. unfold remove_edge_adj.
  pose proof (adj_ok_remove_arc a b adj Hok) as Hok1.
  destruct d.
  - rewrite elem_of_remove_arc by apply Hok. split; [|tauto].
    intros [? ?]. split; [done|]. split; [done|]. by intros [? _].
  - rewrite (elem_of_remove_arc b a) by apply Hok1.
    rewrite elem_of_remove_arc by apply Hok. tauto.
Qed.

(** In a graph built through the constructor and the mutating methods,
    [remove_edge((a, b))] on an edge of the graph returns and takes away the
    answer of [has_edge] for [(a, b)], and for [(b, a)] too when the graph is
    undirected; every other edge and every node stays. *)
Theorem remove_edge_removes (d : bool) (g : Graph) (a b : Node) :
  reachable d g ->
  result (has_edge (a, b) g) = Returned true ->
  result (remove_edge (a, b) g) = Returned tt /\
  (forall c e,
     result (has_edge (c, e) (state_after (remove_edge (a, b) g)))
     = Returned (edge_present c e (adjacency_list g)
                 && negb (bool_decide ((c, e) = (a, b)))
                 && negb (negb d && bool_decide ((c, e) = (b, a))))) /\
  (forall n,
     result (has_node n (state_after (remove_edge (a, b) g)))
     = result (has_node n g)).
Proof.
  intros Hr Hab. destruct (reachable_inv _ _ Hr) as [Hd Hok _].
  destruct g as [adj d']. cbn [adjacency_list directed] in *. subst d'.
  rewrite has_edge_spec in Hab. cbn [result fst] in Hab. injection Hab as Hab.
  rewrite remove_edge_present by done. cbn [result state_after fst snd].
  split; [done|]. split.
  - intros c e. rewrite has_edge_spec. cbn [result fst]. f_equal.
    apply eq_true_iff_eq.
    rewrite (edge_present_closed _ _ _ (adj_ok_remove_edge d a b adj Hok)).
    rewrite elem_of_remove_edge by done.
    rewrite !andb_true_iff, !negb_true_iff, andb_false_iff, negb_false_iff,
      !bool_decide_eq_false, (edge_present_closed _ _ _ Hok).
    split.
    + intros (Hin & Hn1 & Hn2). split; [split; [done|]|].
      * intros [= -> ->]. by apply Hn1.
      * destruct d; [by left|]. right. intros [= -> ->]. by apply Hn2.
    + intros [[Hin Hn1] Hn2]. split; [done|]. split.
      * intros [-> ->]. by apply Hn1.
      * intros (-> & -> & ->). destruct Hn2 as [?|Hn2]; [done|]. by apply Hn2.
  - intros n. unfold has_node. rewrite !contains_spec. cbn [result fst]. f_equal.
    apply bool_decide_ext, keys_remove_edge.
Qed.

Lemma remove_edge_removes_witness :
  result (remove_edge (NInt 1, NInt 2) (__init__ [(NInt 1, NInt 2)] false))
  = Returned tt.
Proof.
  apply (remove_edge_removes false (__init__ [(NInt 1, NInt 2)] false)
           (NInt 1) (NInt 2)).
  - apply reachable_init.
  - vm_compute. reflexivity.
Defined.

Lemma map_eq_adj_get (m1 m2 : gmap Node (list Node)) :
  (forall k, is_Some (m1 !! k) <-> is_Some (m2 !! k)) ->
  (forall k, adj_get m1 k = adj_get m2 k) ->
  m1 = m2.
Proof.
  intros Hkeys Hget. apply map_eq. intros k.
  specialize (Hkeys k). specialize (Hget k). unfold adj_get in Hget.
  destruct (m1 !! k) as [l1|], (m2 !! k) as [l2|]; simpl in *.
  - by subst.
  - destruct Hkeys as [H _]. by destruct H.
  - destruct Hkeys as [_ H]. by destruct H.
  - done.
Qed.

Lemma add_remove_edge_adj d a b (adj : gmap Node (list Node)) :
  is_Some (adj !! a) -> is_Some (adj !! b) ->
  b ∉ adj_get adj a -> a ∉ adj_get adj b ->
  remove_edge_adj d a b (add_edge_adj d a b adj) = adj.
Proof.
  intros Ha Hb Hab Hba. unfold add_edge_adj.
  rewrite (add_node_adj_id a), (add_node_adj_id b) by done.
  assert (Hget1 : adj_get (add_arc a b adj) a = adj_get adj a ++ [b]).
  { rewrite adj_get_add_arc_eq, bool_decide_true by done.
    by rewrite (proj2 (list_in_false _ _)). }
  apply map_eq_adj_get.
  { intros k. destruct d;
      by rewrite keys_remove_edge, ?keys_add_arc. }
  intros k. unfold remove_edge_adj. destruct d.
  - destruct (decide (k = a)) as [-> | Hk].
    + by rewrite adj_get_remove_arc_eq, Hget1, drop_first_snoc.
    + by rewrite adj_get_remove_arc_ne, adj_get_add_arc_ne.
  - destruct (decide (a = b)) as [<- | Hne].
    + assert (add_arc a a (add_arc a a adj) = add_arc a a adj) as ->.
      { apply add_arc_id. rewrite Hget1. apply elem_of_app. right.
        by apply list_elem_of_singleton. }
      destruct (decide (k = a)) as [-> | Hk].
      * rewrite adj_get_remove_arc_eq, adj_get_remove_arc_eq, Hget1.
        rewrite drop_first_snoc by done. by apply drop_first_absent.
      * by rewrite !adj_get_remove_arc_ne, adj_get_add_arc_ne.
    + assert (Hget2 : adj_get (add_arc b a (add_arc a b adj)) b
                      = adj_get adj b ++ [a]).
      { rewrite adj_get_add_arc_eq, adj_get_add_arc_ne by done.
        rewrite bool_decide_true by (by apply keys_add_arc).
        by rewrite (proj2 (list_in_false _ _)). }
      destruct (decide (k = b)) as [-> | Hkb].
      * rewrite adj_get_remove_arc_eq, adj_get_remove_arc_ne by done.
        by rewrite Hget2, drop_first_snoc.
      * rewrite adj_get_remove_arc_ne by done.
        destruct (decide (k = a)) as [-> | Hka].
        -- rewrite adj_get_remove_arc_eq, adj_get_add_arc_ne by done.
           by rewrite Hget1, drop_first_snoc.
        -- by rewrite adj_get_remove_arc_ne, !adj_get_add_arc_ne.
Qed.

(** Adding an edge between two nodes of the graph that are not linked in
    either direction and removing it again gives back the graph as it was:
    the dictionary, the order of every neighbour sequence and the flag. *)
Theorem add_then_remove_edge (g : Graph) (a b : Node) :
  result (has_node a g) = Returned true ->
  result (has_node b g) = Returned true ->
  result (has_edge (a, b) g) = Returned false ->
  result (has_edge (b, a) g) = Returned false ->
  remove_edge (a, b) (state_after (add_edge (a, b) g)) = (Returned tt, g).
Proof.
  destruct g as [adj d]. unfold has_node.
  rewrite !contains_spec, !has_edge_spec. cbn [result fst].
  intros [= Ha%bool_decide_eq_true] [= Hb%bool_decide_eq_true] [= Hab] [= Hba].
  assert (b ∉ adj_get adj a) as Hab'.
  { intros Hin. assert (edge_present a b adj = true) as E; [|congruence].
    by apply edge_present_iff. }
  assert (a ∉ adj_get adj b) as Hba'.
  { intros Hin. assert (edge_present b a adj = true) as E; [|congruence].
    by apply edge_present_iff. }
  rewrite add_edge_spec. cbn [state_after snd].
  rewrite remove_edge_present.
  - by rewrite add_remove_edge_adj.
  - apply edge_present_iff. split.
    + apply keys_add_edge. right. by left.
    + apply elem_of_add_edge. right. by left.
Qed.

Lemma add_then_remove_edge_witness :
  remove_edge (NInt 1, NInt 3)
    (state_after (add_edge (NInt 1, NInt 3)
       (__init__ [(NInt 1, NInt 2); (NInt 2, NInt 3)] false)))
  = (Returned tt, __init__ [(NInt 1, NInt 2); (NInt 2, NInt 3)] false).
Proof.
  apply (add_then_remove_edge
           (__init__ [(NInt 1, NInt 2); (NInt 2, NInt 3)] false)
           (NInt 1) (NInt 3)); vm_compute; reflexivity.
Defined.

(** ** The traversals visit what can be reached, once *)

Section traversals.
Variables (adj : gmap Node (list Node)) (start : Node).

Lemma push_unvisited_filter (visited work neighbors : list Node) :
  foldl (fun work neighbor =>
           if negb (list_in neighbor visited)
           then work ++ [neighbor] else work) work neighbors
  = work ++ filter (fun n => n ∉ visited) neighbors.
Proof.
  revert work. induction neighbors as [|n neighbors IH]; intros work.
  { by rewrite app_nil_r. }
  cbn [foldl]. rewrite IH, filter_cons.
  destruct (decide (n ∉ visited)) as [Hn|Hn].
  - rewrite (proj2 (list_in_false _ _)) by done. cbn [negb].
    by rewrite <- app_assoc.
  - rewrite (proj2 (list_in_true n visited)); [done|].
    by destruct (decide (n ∈ visited)).
Qed.

Lemma elem_of_rev (x : Node) (l : list Node) : x ∈ rev l <-> x ∈ l.
Proof. rewrite !list_elem_of_In. symmetry. apply in_rev. Qed.

Lemma list_pop_snoc {A} (l l' : list A) x :
  list_pop l = Some (x, l') -> l = l' ++ [x].
Proof.
  unfold list_pop. destruct (rev l) as [|y r] eqn:E; [done|].
  intros [= -> <-]. rewrite <- (rev_involutive l), E. done.
Qed.

Lemma traversal_inv_init : traversal_inv adj start [] [start].
Proof.
  split.
  - constructor.
  - intros v [Hv|Hv]; [by apply elem_of_nil in Hv|].
    apply list_elem_of_singleton in Hv as ->. exists [start]. constructor.
  - intros v w Hv. by apply elem_of_nil in Hv.
  - right. by apply list_elem_of_singleton.
  - by left.
Qed.

Lemma traversal_inv_skip (visited work work' : list Node) current :
  traversal_inv adj start visited work ->
  (forall v, v ∈ work <-> v ∈ work' \/ v = current) ->
  current ∈ visited ->
  traversal_inv adj start visited work'.
Proof.
  intros [Hnd Hreach Hcl Hst Hfst] Hwork Hcur. split.
  - done.
  - intros v [Hv|Hv]; apply Hreach; [by left|]. right. apply Hwork. by left.
  - intros v w Hv Hw. destruct (Hcl v w Hv Hw) as [?|Hin]; [by left|].
    apply Hwork in Hin as [?| ->]; [by right|by left].
  - destruct Hst as [?|Hin]; [by left|].
    apply Hwork in Hin as [?| ->]; [by right|by left].
  - destruct Hfst as [[-> _]|?]; [by apply elem_of_nil in Hcur|by right].
Qed.

Lemma traversal_inv_visit (visited work work' work'' : list Node) current :
  traversal_inv adj start visited work ->
  (forall v, v ∈ work <-> v ∈ work' \/ v = current) ->
  current ∉ visited ->
  (forall v, v ∈ work'' <->
     v ∈ work' \/ (v ∈ adj_get adj current /\ v ∉ (visited ++ [current]))) ->
  traversal_inv adj start (visited ++ [current]) work''.
Proof.
  intros [Hnd Hreach Hcl Hst Hfst] Hwork Hcur Hnew.
  assert (Hcw : current ∈ work) by (apply Hwork; by right).
  split.
  - apply NoDup_app. split; [done|]. split; [|apply NoDup_singleton].
    intros v Hv ->%list_elem_of_singleton. done.
  - intros v [Hv|Hv].
    + apply elem_of_app in Hv as [Hv| ->%list_elem_of_singleton];
        apply Hreach; [by left|by right].
    + apply Hnew in Hv as [Hv|[Hv _]].
      * apply Hreach. right. apply Hwork. by left.
      * destruct (Hreach current) as [p Hp]; [by right|].
        exists (p ++ [v]). by apply walk_step with current.
  - intros v w Hv Hw.
    destruct (decide (w ∈ visited ++ [current])) as [?|Hout]; [by left|].
    right. apply Hnew.
    apply elem_of_app in Hv as [Hv| ->%list_elem_of_singleton]; [|by right].
    destruct (Hcl v w Hv Hw) as [Hin|Hin].
    + destruct Hout. apply elem_of_app. by left.
    + apply Hwork in Hin as [?| ->]; [by left|].
      destruct Hout. apply elem_of_app. right. by apply list_elem_of_singleton.
  - left. destruct Hst as [?|Hin]; apply elem_of_app; [by left|].
    apply Hwork in Hin as [Hin| ->]; [|right; by apply list_elem_of_singleton].
    destruct Hfst as [[-> ->]|Hh].
    + apply list_elem_of_singleton in Hcw as ->.
      right. by apply list_elem_of_singleton.
    + left. apply head_Some in Hh as [? ->]. apply elem_of_cons. by left.
  - right. destruct Hfst as [[-> ->]|Hh].
    + apply list_elem_of_singleton in Hcw as ->. done.
    + apply head_Some in Hh as [? ->]. done.
Qed.

Lemma traversal_inv_done visited :
  traversal_inv adj start visited [] ->
  NoDup visited /\ head visited = Some start /\
  forall v, v ∈ visited <-> exists p, path_from_to adj start v p.
Proof.
  intros [Hnd Hreach Hcl Hst Hfst]. split; [done|]. split.
  { by destruct Hfst as [[_ ?]|?]. }
  intros v. split.
  - intros Hv. destruct (Hreach v) as [p Hp]; [by left|].
    exists p. by apply walk_path.
  - intros [p Hp%path_walk]. induction Hp as [|u p w Hw IH Hedge].
    + destruct Hst as [?|Hin]; [done|]. by apply elem_of_nil in Hin.
    + destruct (Hcl u w IH Hedge) as [?|Hin]; [done|].
      by apply elem_of_nil in Hin.
Qed.

Lemma dfs_loop_inv fuel visited stack res :
  traversal_inv adj start visited stack ->
  dfs_loop adj fuel visited stack = Some res ->
  traversal_inv adj start res [].
Proof.
  revert visited stack. induction fuel as [|fuel IH]; intros visited stack Hinv.
  { done. }
  cbn [dfs_loop]. destruct (list_pop stack) as [[current stack']|] eqn:Epop.
  - apply list_pop_snoc in Epop.
    assert (forall v, v ∈ stack <-> v ∈ stack' \/ v = current) as Hwork.
    { intros v. rewrite Epop, elem_of_app, list_elem_of_singleton. done. }
    destruct (list_in current visited) eqn:Hin; cbn [negb].
    + apply IH. apply list_in_true in Hin.
      by apply (traversal_inv_skip _ stack _ current).
    + apply IH. apply list_in_false in Hin.
      apply (traversal_inv_visit _ stack stack' _ current); [done..|].
      intros v. rewrite push_unvisited_filter, elem_of_app,
        list_elem_of_filter, elem_of_rev. tauto.
  - unfold list_pop in Epop. destruct (rev stack) eqn:E; [|done].
    assert (stack = []) as ->.
    { by rewrite <- (rev_involutive stack), E. }
    by intros [= <-].
Qed.

Lemma bfs_loop_inv fuel visited queue res :
  traversal_inv adj start visited queue ->
  bfs_loop adj fuel visited queue = Some res ->
  traversal_inv adj start res [].
Proof.
  revert visited queue. induction fuel as [|fuel IH]; intros visited queue Hinv.
  { done. }
  cbn [bfs_loop]. destruct queue as [|current queue']; [by intros [= <-]|].
  assert (forall v, v ∈ current :: queue' <-> v ∈ queue' \/ v = current) as Hwork.
  { intros v. rewrite elem_of_cons. tauto. }
  destruct (list_in current visited) eqn:Hin; cbn [negb].
  - apply IH. apply list_in_true in Hin.
    by apply (traversal_inv_skip _ (current :: queue') _ current).
  - apply IH. apply list_in_false in Hin.
    apply (traversal_inv_visit _ (current :: queue') queue' _ current); [done..|].
    intros v. rewrite push_unvisited_filter, elem_of_app, list_elem_of_filter.
    tauto.
Qed.
End traversals.

Lemma dfs_loop_visits (adj : gmap Node (list Node)) (start : Node) :
  exists l,
    dfs_loop adj (traversal_fuel adj) [] [start] = Some l /\
    NoDup l /\ head l = Some start /\
    forall v, v ∈ l <-> exists p, path_from_to adj start v p.
Proof.
  destruct (dfs_loop_returns adj start) as [l Hl].
  exists l. split; [done|]. apply traversal_inv_done.
  eapply dfs_loop_inv; [apply traversal_inv_init|done].
Qed.

Lemma bfs_loop_visits (adj : gmap Node (list Node)) (start : Node) :
  exists l,
    bfs_loop adj (traversal_fuel adj) [] [start] = Some l /\
    NoDup l /\ head l = Some start /\
    forall v, v ∈ l <-> exists p, path_from_to adj start v p.
Proof.
  destruct (bfs_loop_returns adj start) as [l Hl].
  exists l. split; [done|]. apply traversal_inv_done.
  eapply bfs_loop_inv; [apply traversal_inv_init|done].
Qed.

(** [depth_first_search(start)] on a node of the graph returns a list that
    begins with [start], holds no node twice, and holds exactly the nodes a
    path leads to from [start]. *)
Theorem depth_first_search_visits (g : Graph) (start : Node) :
  result (has_node start g) = Returned true ->
  exists l,
    result (depth_first_search start g) = Returned l /\
    NoDup l /\ head l = Some start /\
    forall v, v ∈ l <-> exists p, path_from_to (adjacency_list g) start v p.
Proof.
  destruct g as [adj d]. unfold has_node. rewrite contains_spec.
  cbn [result fst adjacency_list]. intros [= Hs].
  rewrite depth_first_search_spec, Hs.
  destruct (dfs_loop_visits adj start) as (l & Hl & Hrest). rewrite Hl.
  by exists l.
Qed.

Lemma depth_first_search_visits_witness :
  exists l,
    result (depth_first_search (NInt 1)
              (__init__ [(NInt 1, NInt 2); (NInt 3, NInt 4)] false))
    = Returned l /\
    NoDup l /\ head l = Some (NInt 1) /\
    forall v, v ∈ l <->
      exists p, path_from_to
        (adjacency_list (__init__ [(NInt 1, NInt 2); (NInt 3, NInt 4)] false))
        (NInt 1) v p.
Proof.
  apply (depth_first_search_visits
           (__init__ [(NInt 1, NInt 2); (NInt 3, NInt 4)] false) (NInt 1)).
  vm_compute. reflexivity.
Defined.

(** [breadth_first_search(start)] on a node of the graph returns a list that
    begins with [start], holds no node twice, and holds exactly the nodes a
    path leads to from [start]. *)
Theorem breadth_first_search_visits (g : Graph) (start : Node) :
  result (has_node start g) = Returned true ->
  exists l,
    result (breadth_first_search start g) = Returned l /\
    NoDup l /\ head l = Some start /\
    forall v, v ∈ l <-> exists p, path_from_to (adjacency_list g) start v p.
Proof.
  destruct g as [adj d]. unfold has_node. rewrite contains_spec.
  cbn [result fst adjacency_list]. intros [= Hs].
  rewrite breadth_first_search_spec, Hs.
  destruct (bfs_loop_visits adj start) as (l & Hl & Hrest). rewrite Hl.
  by exists l.
Qed.

Lemma breadth_first_search_visits_witness :
  exists l,
    result (breadth_first_search (NInt 1)
              (__init__ [(NInt 1, NInt 2); (NInt 3, NInt 4)] false))
    = Returned l /\
    NoDup l /\ head l = Some (NInt 1) /\
    forall v, v ∈ l <->
      exists p, path_from_to
        (adjacency_list (__init__ [(NInt 1, NInt 2); (NInt 3, NInt 4)] false))
        (NInt 1) v p.
Proof.
  apply (breadth_first_search_visits
           (__init__ [(NInt 1, NInt 2); (NInt 3, NInt 4)] false) (NInt 1)).
  vm_compute. reflexivity.
Defined.

(** The three searches agree on what can be reached: from a node of the
    graph, depth-first and breadth-first search return the same nodes, in
    possibly different orders, and [find_shortest_path] to a node of the
    graph returns a path exactly when the traversals list that node. *)
Theorem searches_agree (g : Graph) (start end_ : Node) :
  result (has_node start g) = Returned true ->
  result (has_node end_ g) = Returned true ->
  exists ld lb r,
    result (depth_first_search start g) = Returned ld /\
    result (breadth_first_search start g) = Returned lb /\
    result (find_shortest_path start end_ g) = Returned r /\
    ld ≡ₚ lb /\
    (end_ ∈ lb <-> is_Some r).
Proof.
  destruct g as [adj d]. unfold has_node. rewrite !contains_spec.
  cbn [result fst]. intros [= Hs] [= He].
  rewrite depth_first_search_spec, breadth_first_search_spec,
    find_shortest_path_spec, Hs, He. cbn [andb].
  destruct (dfs_loop_visits adj start) as (ld & -> & Hndd & _ & Hind).
  destruct (bfs_loop_visits adj start) as (lb & -> & Hndb & _ & Hinb).
  pose proof (fsp_loop_returns adj start end_) as Hloop.
  destruct (fsp_loop adj end_ (traversal_fuel adj) [(start, [start])] {[start]})
    as [r|]; [|done].
  exists ld, lb, r. cbn [run_loop ret result fst].
  repeat (split; [done|]). split.
  - apply NoDup_Permutation; [done..|]. intros v. by rewrite Hind, Hinb.
  - rewrite Hinb. destruct r as [p|].
    + destruct Hloop as [Hp _]. split; [by eexists|]. intros _. by exists p.
    + split; [|by intros [? ?]]. intros [q Hq]. by destruct (Hloop q).
Qed.

Lemma searches_agree_witness :
  exists ld lb r,
    result (depth_first_search (NInt 1)
              (__init__ [(NInt 1, NInt 2); (NInt 3, NInt 4)] false))
    = Returned ld /\
    result (breadth_first_search (NInt 1)
              (__init__ [(NInt 1, NInt 2); (NInt 3, NInt 4)] false))
    = Returned lb /\
    result (find_shortest_path (NInt 1) (NInt 3)
              (__init__ [(NInt 1, NInt 2); (NInt 3, NInt 4)] false))
    = Returned r /\
    ld ≡ₚ lb /\
    (NInt 3 ∈ lb <-> is_Some r).
Proof.
  apply (searches_agree
           (__init__ [(NInt 1, NInt 2); (NInt 3, NInt 4)] false)
           (NInt 1) (NInt 3)); vm_compute; reflexivity.
Defined.

(** ** The order of the neighbour sequences *)

Lemma adj_get_add_arc (x y : Node) (adj : gmap Node (list Node)) a :
  is_Some (adj !! x) ->
  adj_get (add_arc x y adj) a
  = if bool_decide (x = a) then append_new (adj_get adj a) y
    else adj_get adj a.
Proof.
  intros Hx. case_bool_decide as Hxa.
  - subst a. rewrite adj_get_add_arc_eq, bool_decide_true by done.
    unfold append_new. by destruct (list_in y (adj_get adj x)).
  - by rewrite adj_get_add_arc_ne.
Qed.

Lemma adj_get_add_edge d (x y : Node) (adj : gmap Node (list Node)) a :
  adj_get (add_edge_adj d x y adj) a
  = foldl append_new (adj_get adj a) (edge_neighbors d a (x, y)).
Proof.
  unfold add_edge_adj, edge_neighbors. cbn [fst snd].
  set (adj2 := add_node_adj y (add_node_adj x adj)).
  assert (Hx : is_Some (adj2 !! x)).
  { apply add_node_adj_is_Some, add_node_adj_lookup_eq. }
  assert (Hy : is_Some (adj2 !! y)) by apply add_node_adj_lookup_eq.
  assert (Hget : adj_get adj2 a = adj_get adj a).
  { unfold adj2. by rewrite !adj_get_add_node. }
  destruct d; cbn [negb andb].
  - rewrite adj_get_add_arc, Hget by done. rewrite app_nil_r.
    by destruct (bool_decide (x = a)).
  - rewrite adj_get_add_arc by (by apply keys_add_arc).
    rewrite adj_get_add_arc, Hget by done. rewrite foldl_app.
    by destruct (bool_decide (x = a)), (bool_decide (y = a)).
Qed.

(** [add_edge((a, b))] puts [b] at the end of the neighbour sequence of
    [a] unless it is there already, and in an undirected graph [a] at the end
    of the sequence of [b] likewise; no other entry moves, and no sequence
    grows by more than the two ends. *)
Theorem add_edge_appends (g : Graph) (a b node : Node) :
  result (get_neighbors node (state_after (add_edge (a, b) g)))
  = (if bool_decide (node = a \/ node = b \/
                       is_Some (adjacency_list g !! node))
     then Returned
            (foldl append_new (adj_get (adjacency_list g) node)
                   (edge_neighbors (directed g) node (a, b)))
     else Raised (ValueError_node node)).
Proof.
  destruct g as [adj d]. rewrite add_edge_spec.
  cbn [state_after snd adjacency_list directed].
  rewrite get_neighbors_spec.
  rewrite (bool_decide_ext _ _ (keys_add_edge d a b adj node)).
  case_bool_decide; cbn [result fst]; [|done].
  by rewrite adj_get_add_edge.
Qed.

(** The neighbour sequence of a node in the graph built by
    [Graph(edges, directed)] lists the other ends of its edges in the order
    of [edges], each at its first occurrence. *)
Theorem init_neighbors (edges : list Edge) (d : bool) (a : Node) :
  result (has_node a (__init__ edges d)) = Returned true ->
  result (get_neighbors a (__init__ edges d))
  = Returned (foldl append_new [] (edges ≫= edge_neighbors d a)).
Proof.
  unfold has_node. rewrite init_spec, contains_spec, get_neighbors_spec.
  cbn [result fst]. intros [= Ha]. rewrite Ha.
  cbn [result fst]. f_equal.
  assert (forall adj : gmap Node (list Node),
    adj_get (foldl (fun adj e => add_edge_adj d e.1 e.2 adj) adj edges) a
    = foldl append_new (adj_get adj a) (edges ≫= edge_neighbors d a)) as H.
  { clear Ha. induction edges as [|[x y] edges IH]; intros adj; [done|].
    cbn [foldl fst snd]. rewrite IH, adj_get_add_edge.
    rewrite bind_cons, foldl_app. done. }
  rewrite H. unfold adj_get. by rewrite lookup_empty.
Qed.

Lemma init_neighbors_witness :
  result (get_neighbors (NInt 1)
    (__init__ [(NInt 1, NInt 2); (NInt 3, NInt 1); (NInt 1, NInt 2);
               (NInt 1, NInt 1)] false))
  = Returned [NInt 2; NInt 3; NInt 1].
Proof.
  apply (init_neighbors
           [(NInt 1, NInt 2); (NInt 3, NInt 1); (NInt 1, NInt 2);
            (NInt 1, NInt 1)] false (NInt 1)).
  vm_compute. reflexivity.
Defined.

(** ** The path found visits no node twice *)

Section simple_paths.
Variable adj : gmap Node (list Node).

Lemma is_path_split (l1 l2 : list Node) x :
  is_path adj (l1 ++ x :: l2) = true <->
  is_path adj (l1 ++ [x]) = true /\ is_path adj (x :: l2) = true.
Proof.
  induction l1 as [|a l1 IH].
  { cbn [app is_path]. tauto. }
  destruct l1 as [|b l1].
  - change (is_path adj ([a] ++ x :: l2))
      with (list_in x (adj_get adj a) && is_path adj (x :: l2)).
    change (is_path adj ([a] ++ [x]))
      with (list_in x (adj_get adj a) && true).
    rewrite andb_true_r, andb_true_iff. tauto.
  - change (is_path adj ((a :: b :: l1) ++ x :: l2))
      with (list_in b (adj_get adj a) && is_path adj ((b :: l1) ++ x :: l2)).
    change (is_path adj ((a :: b :: l1) ++ [x]))
      with (list_in b (adj_get adj a) && is_path adj ((b :: l1) ++ [x])).
    rewrite !andb_true_iff, IH. tauto.
Qed.

Lemma path_shortcut a b (p1 p2 p3 : list Node) x :
  path_from_to adj a b (p1 ++ x :: p2 ++ x :: p3) ->
  path_from_to adj a b (p1 ++ x :: p3).
Proof.
  intros (Hh & Hl & Hp). split; [|split].
  - destruct p1; done.
  - rewrite last_app_cons in Hl. rewrite app_comm_cons, last_app_cons in Hl.
    by rewrite last_app_cons.
  - apply is_path_split in Hp as [Hp1 Hp2].
    rewrite app_comm_cons in Hp2. apply is_path_split in Hp2 as [_ Hp3].
    by apply is_path_split.
Qed.

Lemma shortest_path_NoDup a b (p : list Node) :
  path_from_to adj a b p ->
  (forall q, path_from_to adj a b q -> edge_count p <= edge_count q) ->
  NoDup p.
Proof.
  intros Hp Hmin. destruct (decide (NoDup p)) as [?|Hdup]; [done|].
  exfalso.
  assert (exists p1 x p2 p3, p = p1 ++ x :: p2 ++ x :: p3)
    as (p1 & x & p2 & p3 & ->).
  { clear Hp Hmin. induction p as [|y p IH]; [by destruct Hdup; constructor|].
    destruct (decide (y ∈ p)) as [Hin|Hout].
    - apply list_elem_of_split in Hin as (p2 & p3 & ->).
      by exists [], y, p2, p3.
    - destruct IH as (p1 & x & p2 & p3 & ->).
      { intros Hnd. apply Hdup. by constructor. }
      by exists (y :: p1), x, p2, p3. }
  specialize (Hmin _ (path_shortcut _ _ _ _ _ _ Hp)).
  unfold edge_count in Hmin. rewrite !length_app in Hmin. simpl in Hmin.
  rewrite length_app in Hmin. simpl in Hmin. lia.
Qed.
End simple_paths.

(** The path [find_shortest_path] returns holds no node twice. *)
Theorem shortest_path_is_simple (g : Graph) (start end_ : Node) (p : list Node) :
  result (find_shortest_path start end_ g) = Returned (Some p) ->
  NoDup p.
Proof.
  destruct g as [adj d]. rewrite find_shortest_path_spec.
  destruct (_ && _); [|done].
  pose proof (fsp_loop_returns adj start end_) as Hloop.
  destruct (fsp_loop adj end_ (traversal_fuel adj) [(start, [start])] {[start]})
    as [[p'|]|]; [|done..].
  cbn [run_loop ret result fst]. intros [= <-].
  destruct Hloop as [Hp Hmin]. by apply (shortest_path_NoDup adj start end_).
Qed.

Lemma shortest_path_is_simple_witness :
  result (find_shortest_path (NInt 1) (NInt 3)
    (__init__ [(NInt 1, NInt 2); (NInt 2, NInt 3);
               (NInt 3, NInt 4); (NInt 1, NInt 4)] false))
  = Returned (Some [NInt 1; NInt 2; NInt 3]) /\
  NoDup [NInt 1; NInt 2; NInt 3].
Proof.
  split; [vm_compute; reflexivity|].
  apply (shortest_path_is_simple
           (__init__ [(NInt 1, NInt 2); (NInt 2, NInt 3);
                      (NInt 3, NInt 4); (NInt 1, NInt 4)] false)
           (NInt 1) (NInt 3)).
  vm_compute. reflexivity.
Defined.

(** ** The textual representation: when it exists, and its order *)

Section rendering.
Implicit Types (x y z : Node * list Node) (items acc : list (Node * list Node)).

Lemma same_kind_refl (a : Node) : same_kind a a = true.
Proof. by destruct a. Qed.

Lemma same_kind_trans (a b c : Node) :
  same_kind a b = true -> same_kind b c = true -> same_kind a c = true.
Proof. by destruct a, b, c. Qed.

Lemma same_kind_sym (a b : Node) : same_kind a b = same_kind b a.
Proof. by destruct a, b. Qed.

Lemma node_lt_mixed (a b : Node) : same_kind a b = false -> node_lt a b = None.
Proof. by destruct a, b. Qed.

Lemma node_lt_total (a b : Node) :
  a <> b -> node_lt a b = Some false -> node_lt b a = Some true.
Proof.
  destruct a as [s1|z1], b as [s2|z2]; cbn [node_lt]; intros Hne [= Hlt];
    f_equal.
  - unfold String.ltb in *. rewrite String.compare_antisym.
    destruct (String.compare s1 s2) eqn:E; [|done..].
    apply String.compare_eq_iff in E. by subst.
  - apply Z.ltb_lt. apply Z.ltb_ge in Hlt.
    assert (z1 <> z2) by (intros ->; done). lia.
Qed.

Lemma sorted_fold_None items :
  foldl (fun o x => o ≫= sorted_insert x) None items = None.
Proof. by induction items. Qed.

Lemma sorted_insert_Sorted x acc acc' :
  Sorted item_before acc ->
  (forall y, y ∈ acc -> y.1 <> x.1) ->
  sorted_insert x acc = Some acc' ->
  Sorted item_before acc' /\
  forall z, HdRel item_before z acc -> item_before z x -> HdRel item_before z acc'.
Proof.
  revert acc'. induction acc as [|y acc IH]; intros acc' Hs Hne.
  { intros [= <-]. split; [by repeat constructor|]. intros z _ Hz.
    by constructor. }
  cbn [sorted_insert].
  assert (y.1 <> x.1) as Hyx by (apply Hne, elem_of_cons; by left).
  unfold item_lt. rewrite decide_False by done.
  destruct (node_lt x.1 y.1) as [[|]|] eqn:Hlt; [| |done].
  - intros [= <-]. split.
    + constructor; [done|]. by constructor.
    + intros z _ Hz. by constructor.
  - destruct (sorted_insert x acc) as [acc1|] eqn:Hins; [|done].
    cbn [fmap option_fmap option_map]. intros [= <-].
    apply Sorted_inv in Hs as [Hs Hhd].
    destruct (IH acc1 Hs) as [Hs1 Hhd1]; [|done|].
    { intros z Hz. apply Hne, elem_of_cons. by right. }
    split.
    + constructor; [done|]. apply Hhd1; [done|].
      apply node_lt_total; [done|exact Hlt].
    + intros z Hz _. apply HdRel_inv in Hz. by constructor.
Qed.

Lemma sorted_insert_perm x acc acc' :
  sorted_insert x acc = Some acc' -> acc' ≡ₚ x :: acc.
Proof.
  revert acc'. induction acc as [|y acc IH]; intros acc'.
  { by intros [= <-]. }
  cbn [sorted_insert]. destruct (item_lt x y) as [[|]|]; [| |done].
  - by intros [= <-].
  - destruct (sorted_insert x acc) as [acc1|]; [|done].
    cbn [fmap option_fmap option_map]. intros [= <-].
    rewrite (IH acc1) by done. apply Permutation_swap.
Qed.

Lemma sorted_fold_spec items acc l :
  NoDup (acc ++ items).*1 -> Sorted item_before acc ->
  foldl (fun o x => o ≫= sorted_insert x) (Some acc) items = Some l ->
  l ≡ₚ acc ++ items /\ Sorted item_before l.
Proof.
  revert acc. induction items as [|x items IH]; intros acc Hnd Hs.
  { intros [= <-]. by rewrite app_nil_r. }
  cbn [foldl mbind option_bind].
  destruct (sorted_insert x acc) as [acc'|] eqn:Hins;
    [|by rewrite sorted_fold_None].
  pose proof (sorted_insert_perm _ _ _ Hins) as Hperm.
  assert (acc' ++ items ≡ₚ acc ++ x :: items) as Hall.
  { rewrite Hperm. simpl. apply Permutation_middle. }
  assert (forall y, y ∈ acc -> y.1 <> x.1) as Hne.
  { intros y Hy Heq. rewrite fmap_app, fmap_cons in Hnd.
    apply NoDup_app in Hnd as (_ & Hdis & _).
    apply (Hdis y.1); [by apply list_elem_of_fmap_2|].
    rewrite Heq. apply elem_of_cons. by left. }
  destruct (sorted_insert_Sorted x acc acc' Hs Hne Hins) as [Hs' _].
  intros Hl. destruct (IH acc') as [Hp Hsl]; [by rewrite Hall|done|done|].
  split; [by rewrite Hp|done].
Qed.

Lemma sorted_fold_mixed items acc :
  NoDup (acc ++ items).*1 ->
  (forall a b, a ∈ acc.*1 -> b ∈ acc.*1 -> same_kind a b = true) ->
  (exists a b, a ∈ (acc ++ items).*1 /\ b ∈ (acc ++ items).*1 /\
               same_kind a b = false) ->
  foldl (fun o x => o ≫= sorted_insert x) (Some acc) items = None.
Proof.
  revert acc. induction items as [|x items IH]; intros acc Hnd Hk Hmix.
  { destruct Hmix as (a & b & Ha & Hb & Hab). rewrite app_nil_r in Ha, Hb.
    by rewrite (Hk a b) in Hab. }
  cbn [foldl mbind option_bind].
  destruct (sorted_insert x acc) as [acc'|] eqn:Hins;
    [|by rewrite sorted_fold_None].
  pose proof (sorted_insert_perm _ _ _ Hins) as Hperm.
  assert (acc' ++ items ≡ₚ acc ++ x :: items) as Hall.
  { rewrite Hperm. simpl. apply Permutation_middle. }
  apply IH.
  - by rewrite Hall.
  - assert (forall a, a ∈ acc.*1 -> same_kind x.1 a = true) as Hx.
    { destruct acc as [|y acc0]; [intros a Ha; by apply elem_of_nil in Ha|].
      assert (same_kind x.1 y.1 = true) as Hxy.
      { destruct (same_kind x.1 y.1) eqn:E; [done|]. exfalso.
        cbn [sorted_insert] in Hins. unfold item_lt in Hins.
        rewrite decide_False in Hins.
        - by rewrite (node_lt_mixed _ _ E) in Hins.
        - intros Heq. by rewrite Heq, same_kind_refl in E. }
      intros a Ha. apply (same_kind_trans _ y.1); [done|].
      apply Hk; [rewrite fmap_cons; apply elem_of_cons; by left|done]. }
    intros a b. rewrite Hperm, fmap_cons, !elem_of_cons.
    intros [-> |Ha] [-> |Hb].
    + apply same_kind_refl.
    + by apply Hx.
    + rewrite same_kind_sym. by apply Hx.
    + by apply Hk.
  - destruct Hmix as (a & b & Ha & Hb & Hab). exists a, b.
    by rewrite Hall.
Qed.

Lemma sorted_spec items :
  NoDup items.*1 ->
  match sorted items with
  | Some l => l ≡ₚ items /\ Sorted item_before l /\
              forall a b, a ∈ items.*1 -> b ∈ items.*1 -> same_kind a b = true
  | None => exists a b, a ∈ items.*1 /\ b ∈ items.*1 /\ same_kind a b = false
  end.
Proof.
  intros Hnd.
  destruct (decide (Forall (fun a => Forall (fun b => same_kind a b = true)
                                        items.*1) items.*1)) as [Hk|Hmix].
  - destruct (sorted_returns items Hnd) as (l & Hl & Hperm).
    { intros a b Ha Hb. rewrite Forall_forall in Hk.
      specialize (Hk a Ha). rewrite Forall_forall in Hk. by apply Hk. }
    rewrite Hl. split; [done|]. split.
    + unfold sorted in Hl.
      by destruct (sorted_fold_spec items [] l Hnd (Sorted_nil _) Hl).
    + intros a b Ha Hb. rewrite Forall_forall in Hk.
      specialize (Hk a Ha). rewrite Forall_forall in Hk. by apply Hk.
  - apply not_Forall_Exists in Hmix; [|apply _].
    apply Exists_exists in Hmix as (a & Ha & Hmix).
    apply not_Forall_Exists in Hmix; [|apply _].
    apply Exists_exists in Hmix as (b & Hb & Hab).
    apply not_true_is_false in Hab.
    unfold sorted. rewrite (sorted_fold_mixed items []); [by exists a, b|done| |].
    + intros ? ? H. by apply elem_of_nil in H.
    + by exists a, b.
Qed.
End rendering.

Lemma str_spec (adj : gmap Node (list Node)) (d : bool) :
  __str__ (mkGraph adj d)
  = match sorted (map_to_list adj) with
    | Some items =>
        (Returned (join (String (ascii_of_nat 10) EmptyString)
                        (render_line <$> items)), mkGraph adj d)
    | None => (Raised TypeError, mkGraph adj d)
    end.
Proof.
  unfold __str__, bind, get_adjacency. cbn [adjacency_list].
  by destruct (sorted (map_to_list adj)).
Qed.


(** When [str(graph)] returns, the text is the lines of the items of the
    dictionary joined by line breaks: one item for every node with its
    neighbour sequence, each node once, in increasing order of the nodes. *)
Theorem str_lists_nodes_in_order (g : Graph) (s : string) :
  result (__str__ g) = Returned s ->
  exists items,
    s = join (String (ascii_of_nat 10) EmptyString) (render_line <$> items) /\
    NoDup items.*1 /\
    (forall k l, (k, l) ∈ items <-> adjacency_list g !! k = Some l) /\
    Sorted item_before items.
Proof.
  destruct g as [adj d]. rewrite str_spec. cbn [adjacency_list].
  pose proof (sorted_spec (map_to_list adj) (NoDup_fst_map_to_list adj)) as H.
  destruct (sorted (map_to_list adj)) as [items|]; [|done].
  cbn [result fst]. intros [= <-]. destruct H as (Hperm & Hs & _).
  exists items. split; [done|]. split; [|split; [|done]].
  - rewrite Hperm. apply NoDup_fst_map_to_list.
  - intros k l. rewrite Hperm. apply elem_of_map_to_list.
Qed.

Lemma str_lists_nodes_in_order_witness :
  exists items,
    "1: 3
2: 3
3: 1, 2"%string
    = join (String (ascii_of_nat 10) EmptyString) (render_line <$> items) /\
    NoDup items.*1 /\
    (forall k l, (k, l) ∈ items <->
       adjacency_list (__init__ [(NInt 3, NInt 1); (NInt 2, NInt 3)] false)
         !! k = Some l) /\
    Sorted item_before items.
Proof.
  apply (str_lists_nodes_in_order
           (__init__ [(NInt 3, NInt 1); (NInt 2, NInt 3)] false)).
  vm_compute. reflexivity.
Defined.


(** ** Breadth-first search lists nearer nodes first *)

Section bfs_order.
Variables (adj : gmap Node (list Node)) (start : Node).

Lemma bfs_levels_erase fuel (visited queue : list (Node * nat)) :
  bfs_loop adj fuel visited.*1 queue.*1
  = fmap (M := option) (fmap fst) (bfs_levels adj fuel visited queue).
Proof.
  revert visited queue. induction fuel as [|fuel IH]; intros visited queue.
  { done. }
  cbn [bfs_loop bfs_levels]. destruct queue as [|[current n] queue]; [done|].
  rewrite fmap_cons. cbn [fst].
  destruct (list_in current visited.*1); cbn [negb]; [apply IH|].
  rewrite push_unvisited_filter, <- IH. f_equal.
  - by rewrite fmap_app.
  - rewrite !fmap_app, <- list_fmap_compose. f_equal.
    rewrite <- (list_fmap_id (filter _ _)) at 1. done.
Qed.

Lemma walk_length_one (p : list Node) v :
  walk adj start v p -> length p = 1 -> v = start.
Proof.
  destruct 1 as [|u p w Hw Hedge]; [done|].
  apply walk_nonempty in Hw. rewrite length_app. simpl. lia.
Qed.

Lemma bfs_inv_init : bfs_inv adj start [] [(start, 1)].
Proof.
  split.
  - intros v n Hv. by apply elem_of_nil in Hv.
  - intros w n [= -> ->]%list_elem_of_singleton. exists [start].
    split; [constructor|done].
  - intros y n w Hy. by apply elem_of_nil in Hy.
  - right. by apply list_elem_of_singleton.
  - exists 1, [(start, 1)], []. split; [done|]. repeat split; by repeat constructor.
  - intros i j a b Hi. by rewrite lookup_nil in Hi.
Qed.

Lemma bfs_frontier (visited queue : list (Node * nat)) w q :
  bfs_inv adj start visited queue ->
  walk adj start w q ->
  (forall e, e ∈ queue -> length q < e.2) ->
  w ∈ visited.*1.
Proof.
  intros Hinv Hw. induction Hw as [|v p w Hw IH Hedge]; intros Hq.
  { destruct (bfs_start _ _ _ _ Hinv) as [?|Hin]; [done|].
    specialize (Hq _ Hin). simpl in Hq. lia. }
  rewrite length_app in Hq. cbn [length] in Hq.
  assert (v ∈ visited.*1) as Hv.
  { apply IH. intros e He. specialize (Hq e He). lia. }
  apply list_elem_of_fmap in Hv as [[v' n] [Heq Hv]]. cbn [fst] in Heq. subst v'.
  destruct (bfs_exact _ _ _ _ Hinv v n Hv) as [_ Hmin].
  specialize (Hmin p Hw).
  destruct (bfs_closed _ _ _ _ Hinv v n w Hv Hedge) as [?|(m & Hm & Hle)];
    [done|].
  specialize (Hq _ Hm). cbn [snd] in Hq. lia.
Qed.

Lemma bfs_head_range current n (visited queue : list (Node * nat)) :
  bfs_inv adj start visited ((current, n) :: queue) ->
  (forall e, e ∈ (current, n) :: queue -> n <= e.2) /\
  (forall e, e ∈ visited -> e.2 <= n) /\
  exists A B,
    queue = A ++ B /\
    Forall (fun e : Node * nat => e.2 = n) A /\
    Forall (fun e : Node * nat => e.2 = S n) B.
Proof.
  intros Hinv.
  destruct (bfs_levels_of _ _ _ _ Hinv) as (d & A & B & HQ & HA & HB & HV).
  rewrite Forall_forall in HV.
  destruct A as [|a A].
  - simpl in HQ. subst B. apply Forall_cons in HB as [Hn HB].
    cbn [snd] in Hn. subst n. split; [|split].
    + intros e [-> |He]%elem_of_cons; [done|].
      rewrite Forall_forall in HB. by rewrite (HB e He).
    + intros e He. specialize (HV e He). lia.
    + exists queue, []. rewrite app_nil_r. split; [done|]. split; [done|].
      constructor.
  - simpl in HQ. injection HQ as <- ->. apply Forall_cons in HA as [Hn HA].
    cbn [snd] in Hn. subst d. split; [|split].
    + intros e [-> |[He|He]%elem_of_app]%elem_of_cons; [done| |].
      * rewrite Forall_forall in HA. by rewrite (HA e He).
      * rewrite Forall_forall in HB. rewrite (HB e He). lia.
    + intros e He. by apply HV.
    + by exists A, B.
Qed.

Lemma bfs_inv_skip current n (visited queue : list (Node * nat)) :
  bfs_inv adj start visited ((current, n) :: queue) ->
  current ∈ visited.*1 ->
  bfs_inv adj start visited queue.
Proof.
  intros Hinv Hcur.
  destruct (bfs_head_range _ _ _ _ Hinv) as (_ & HV & A & B & HQ & HA & HB).
  split.
  - apply (bfs_exact _ _ _ _ Hinv).
  - intros w m Hw. apply (bfs_queued _ _ _ _ Hinv). apply elem_of_cons. by right.
  - intros y k w Hy Hw.
    destruct (bfs_closed _ _ _ _ Hinv y k w Hy Hw) as [?|(m & Hm & Hle)];
      [by left|].
    apply elem_of_cons in Hm as [[= -> ->]|Hm]; [by left|].
    right. by exists m.
  - destruct (bfs_start _ _ _ _ Hinv) as [?|Hin]; [by left|].
    apply elem_of_cons in Hin as [[= -> ->]|Hin]; [by left|by right].
  - exists n, A, B. split; [done|]. split; [done|]. split; [done|].
    by apply Forall_forall.
  - apply (bfs_sorted _ _ _ _ Hinv).
Qed.

Lemma bfs_inv_visit current n (visited queue : list (Node * nat)) :
  bfs_inv adj start visited ((current, n) :: queue) ->
  current ∉ visited.*1 ->
  bfs_inv adj start (visited ++ [(current, n)])
    (queue ++ ((fun w => (w, S n))
               <$> filter (fun w => w ∉ (visited ++ [(current, n)]).*1)
                          (adj_get adj current))).
Proof.
  intros Hinv Hcur.
  destruct (bfs_head_range _ _ _ _ Hinv) as (Hmin & HV & A & B & HQ & HA & HB).
  destruct (bfs_queued _ _ _ _ Hinv current n) as (pc & Hpc & Hlen).
  { apply elem_of_cons. by left. }
  set (visited' := visited ++ [(current, n)]).
  assert (Hsub : forall v, v ∈ visited.*1 -> v ∈ visited'.*1).
  { intros v Hv. unfold visited'. rewrite fmap_app. apply elem_of_app. by left. }
  assert (Hcv : current ∈ visited'.*1).
  { unfold visited'. rewrite fmap_app. apply elem_of_app. right.
    by apply list_elem_of_singleton. }
  split.
  - intros v k [Hv|[= -> ->]%list_elem_of_singleton]%elem_of_app.
    + by apply (bfs_exact _ _ _ _ Hinv).
    + split; [by exists pc|]. intros q Hq.
      destruct (decide (n <= length q)) as [?|Hlt]; [done|].
      destruct Hcur. apply (bfs_frontier _ _ _ _ Hinv Hq).
      intros e He. specialize (Hmin e He). lia.
  - intros w m [Hw|Hw]%elem_of_app.
    + apply (bfs_queued _ _ _ _ Hinv). apply elem_of_cons. by right.
    + apply list_elem_of_fmap in Hw as (w' & [= -> ->] & Hw').
      apply list_elem_of_filter in Hw' as [_ Hedge].
      exists (pc ++ [w']). split; [by apply walk_step with current|].
      rewrite length_app. simpl. lia.
  - intros y k w [Hy|[= -> ->]%list_elem_of_singleton]%elem_of_app Hw.
    + destruct (bfs_closed _ _ _ _ Hinv y k w Hy Hw) as [?|(m & Hm & Hle)];
        [left; by apply Hsub|].
      apply elem_of_cons in Hm as [[= -> ->]|Hm]; [by left|].
      right. exists m. split; [|done]. apply elem_of_app. by left.
    + destruct (decide (w ∈ visited'.*1)) as [?|Hout]; [by left|].
      right. exists (S n). split; [|done]. apply elem_of_app. right.
      apply list_elem_of_fmap. exists w. split; [done|].
      by apply list_elem_of_filter.
  - left. destruct (bfs_start _ _ _ _ Hinv) as [?|Hin]; [by apply Hsub|].
    apply elem_of_cons in Hin as [[= Hs Hn]|Hin]; [by rewrite Hs|].
    destruct (bfs_queued _ _ _ _ Hinv start 1) as (p1 & Hp1 & Hl1).
    { apply elem_of_cons. by right. }
    assert (1 <= n) by (rewrite <- Hlen; by eapply walk_nonempty).
    assert (n <= 1) by (apply (Hmin (start, 1)), elem_of_cons; by right).
    assert (current = start) as Heq; [|by rewrite <- Heq].
    apply (walk_length_one pc); [done|lia].
  - exists n, A, (B ++ ((fun w => (w, S n))
                         <$> filter (fun w => w ∉ visited'.*1)
                                    (adj_get adj current))).
    split; [by rewrite HQ, app_assoc|]. split; [done|]. split.
    + apply Forall_app. split; [done|]. apply Forall_forall.
      intros e (w & -> & _)%list_elem_of_fmap. done.
    + apply Forall_app. split; [by apply Forall_forall|]. by repeat constructor.
  - intros i j a b Hi Hj Hij. unfold visited' in Hi, Hj.
    destruct (decide (j < length visited)) as [Hlt|Hge].
    + rewrite lookup_app_l in Hi, Hj by lia.
      by apply (bfs_sorted _ _ _ _ Hinv i j).
    + rewrite lookup_app_r in Hj by lia.
      destruct (j - length visited) as [|k] eqn:Ek; [|by destruct k].
      injection Hj as <-. cbn [snd].
      destruct (decide (i < length visited)) as [Hlt|Hge'].
      * rewrite lookup_app_l in Hi by lia.
        apply (HV a). by eapply list_elem_of_lookup_2.
      * rewrite lookup_app_r in Hi by lia.
        assert (i - length visited = 0) as Hz by lia.
        rewrite Hz in Hi. by injection Hi as <-.
Qed.

Lemma bfs_levels_inv fuel (visited queue res : list (Node * nat)) :
  bfs_inv adj start visited queue ->
  bfs_levels adj fuel visited queue = Some res ->
  bfs_inv adj start res [].
Proof.
  revert visited queue. induction fuel as [|fuel IH]; intros visited queue Hinv.
  { done. }
  cbn [bfs_levels]. destruct queue as [|[current n] queue]; [by intros [= <-]|].
  destruct (list_in current visited.*1) eqn:Hin; cbn [negb].
  - apply IH. apply list_in_true in Hin. by apply (bfs_inv_skip current n).
  - apply IH. apply list_in_false in Hin. by apply bfs_inv_visit.
Qed.

Lemma bfs_loop_order :
  exists l,
    bfs_loop adj (traversal_fuel adj) [] [start] = Some l /\
    forall i j u v,
      l !! i = Some u -> l !! j = Some v -> i <= j ->
      forall q, path_from_to adj start v q ->
      exists p, path_from_to adj start u p /\ edge_count p <= edge_count q.
Proof.
  destruct (bfs_loop_returns adj start) as [l Hl]. exists l. split; [done|].
  pose proof (bfs_levels_erase (traversal_fuel adj) [] [(start, 1)]) as He.
  change ([(start, 1)].*1) with [start] in He. change ([] .*1) with (@nil Node) in He.
  rewrite Hl in He.
  destruct (bfs_levels adj (traversal_fuel adj) [] [(start, 1)]) as [res|] eqn:Hres;
    [|done].
  injection He as ->.
  pose proof (bfs_levels_inv _ _ _ _ bfs_inv_init Hres) as Hinv.
  intros i j u v Hi Hj Hij q Hq%path_walk.
  rewrite list_lookup_fmap in Hi, Hj.
  destruct (res !! i) as [[u' nu]|] eqn:Ei; [|done].
  destruct (res !! j) as [[v' nv]|] eqn:Ej; [|done].
  cbn in Hi, Hj. injection Hi as ->. injection Hj as ->.
  destruct (bfs_exact _ _ _ _ Hinv u nu) as [(p & Hp & Hlen) _].
  { by eapply list_elem_of_lookup_2. }
  destruct (bfs_exact _ _ _ _ Hinv v nv) as [_ Hmin].
  { by eapply list_elem_of_lookup_2. }
  pose proof (bfs_sorted _ _ _ _ Hinv i j _ _ Ei Ej Hij) as Hle.
  cbn [snd] in Hle. specialize (Hmin q Hq).
  exists p. split; [by apply walk_path|]. unfold edge_count. lia.
Qed.
End bfs_order.

(** [breadth_first_search(start)] lists the nodes by distance: a node
    listed before another one is reached from [start] by a path with no more
    edges than any path to the other. *)
Theorem breadth_first_search_order (g : Graph) (start : Node) :
  result (has_node start g) = Returned true ->
  exists l,
    result (breadth_first_search start g) = Returned l /\
    forall i j u v,
      l !! i = Some u -> l !! j = Some v -> i <= j ->
      forall q, path_from_to (adjacency_list g) start v q ->
      exists p, path_from_to (adjacency_list g) start u p /\
                edge_count p <= edge_count q.
Proof.
  destruct g as [adj d]. unfold has_node. rewrite contains_spec.
  cbn [result fst adjacency_list]. intros [= Hs].
  rewrite breadth_first_search_spec, Hs.
  destruct (bfs_loop_order adj start) as (l & -> & Horder). by exists l.
Qed.

Lemma breadth_first_search_order_witness :
  exists l,
    result (breadth_first_search (NInt 1)
      (__init__ [(NInt 1, NInt 2); (NInt 2, NInt 3); (NInt 1, NInt 4)] false))
    = Returned l /\
    forall i j u v,
      l !! i = Some u -> l !! j = Some v -> i <= j ->
      forall q, path_from_to
        (adjacency_list
           (__init__ [(NInt 1, NInt 2); (NInt 2, NInt 3); (NInt 1, NInt 4)] false))
        (NInt 1) v q ->
      exists p, path_from_to
        (adjacency_list
           (__init__ [(NInt 1, NInt 2); (NInt 2, NInt 3); (NInt 1, NInt 4)] false))
        (NInt 1) u p /\
        edge_count p <= edge_count q.
Proof.
  apply (breadth_first_search_order
           (__init__ [(NInt 1, NInt 2); (NInt 2, NInt 3); (NInt 1, NInt 4)] false)
           (NInt 1)).
  vm_compute. reflexivity.
Defined.

(** ** Where the traversals go first *)

Section first_steps.
Variable adj : gmap Node (list Node).

Lemma dfs_loop_prefix fuel (visited stack res : list Node) :
  dfs_loop adj fuel visited stack = Some res -> exists rest, res = visited ++ rest.
Proof.
  revert visited stack. induction fuel as [|fuel IH]; intros visited stack.
  { done. }
  cbn [dfs_loop]. destruct (list_pop stack) as [[current stack']|].
  - destruct (list_in current visited); cbn [negb]; [apply IH|].
    intros (rest & ->)%IH. exists (current :: rest). by rewrite <- app_assoc.
  - intros [= <-]. exists []. by rewrite app_nil_r.
Qed.

Lemma bfs_loop_prefix fuel (visited queue res : list Node) :
  bfs_loop adj fuel visited queue = Some res -> exists rest, res = visited ++ rest.
Proof.
  revert visited queue. induction fuel as [|fuel IH]; intros visited queue.
  { done. }
  cbn [bfs_loop]. destruct queue as [|current queue].
  - intros [= <-]. exists []. by rewrite app_nil_r.
  - destruct (list_in current visited); cbn [negb]; [apply IH|].
    intros (rest & ->)%IH. exists (current :: rest). by rewrite <- app_assoc.
Qed.

Lemma bfs_loop_layer fuel (visited ns queue res : list Node) :
  NoDup ns -> (forall n, n ∈ ns -> n ∉ visited) ->
  bfs_loop adj fuel visited (ns ++ queue) = Some res ->
  exists rest, res = visited ++ ns ++ rest.
Proof.
  revert fuel visited queue. induction ns as [|n ns IH];
    intros fuel visited queue Hnd Hnew.
  { apply bfs_loop_prefix. }
  destruct fuel as [|fuel]; [done|].
  apply NoDup_cons in Hnd as [Hn Hnd].
  cbn [bfs_loop app].
  rewrite (proj2 (list_in_false n visited)) by (apply Hnew, elem_of_cons; by left).
  cbn [negb]. rewrite push_unvisited_filter, <- app_assoc.
  intros (rest & ->)%IH; [|done|].
  - exists rest. by rewrite <- app_assoc.
  - intros m Hm [Hv| ->%list_elem_of_singleton]%elem_of_app; [|done].
    revert Hv. apply Hnew, elem_of_cons. by right.
Qed.

Lemma filter_rev_other (start : Node) (ws : list Node) :
  filter (fun w => w ∉ [start]) (rev ws)
  = rev (filter (fun w => w <> start) ws).
Proof.
  induction ws as [|w ws IH]; [done|].
  cbn [rev]. rewrite filter_app, IH, (filter_cons _ w ws).
  rewrite (filter_cons _ w []), filter_nil.
  destruct (decide (w <> start)) as [Hw|Hw].
  - rewrite decide_True by (by intros ->%list_elem_of_singleton). done.
  - rewrite decide_False, app_nil_r; [done|].
    intros Hout. apply Hw. intros ->. apply Hout.
    by apply list_elem_of_singleton.
Qed.

Lemma dfs_loop_first (start n : Node) (l : list Node) :
  head (filter (fun w => w <> start) (adj_get adj start)) = Some n ->
  dfs_loop adj (traversal_fuel adj) [] [start] = Some l ->
  exists rest, l = start :: n :: rest.
Proof.
  intros Hn. unfold traversal_fuel.
  set (fuel := length _). cbn [dfs_loop list_pop rev app].
  rewrite (proj2 (list_in_false start [])) by apply not_elem_of_nil.
  cbn [negb]. rewrite push_unvisited_filter. cbn [app].
  rewrite filter_rev_other.
  apply head_Some in Hn as [ns Hns]. rewrite Hns.
  assert (n <> start) as Hne.
  { assert (n ∈ filter (fun w => w <> start) (adj_get adj start)) as Hin.
    { rewrite Hns. apply elem_of_cons. by left. }
    by apply list_elem_of_filter in Hin as [? _]. }
  unfold list_pop. rewrite rev_involutive.
  rewrite (proj2 (list_in_false n [start]))
    by (by intros ->%list_elem_of_singleton).
  cbn [negb app]. intros (rest & ->)%dfs_loop_prefix. by exists rest.
Qed.
End first_steps.

(** [depth_first_search(start)] goes from [start] to the neighbour of
    [start] that is listed first (a self-loop aside): the reversed push makes
    the first-listed neighbour the first one popped. *)
Theorem depth_first_search_first_neighbor (g : Graph) (start n : Node)
    (l : list Node) :
  result (get_neighbors start g) = Returned l ->
  head (filter (fun w => w <> start) l) = Some n ->
  exists rest,
    result (depth_first_search start g) = Returned (start :: n :: rest).
Proof.
  destruct g as [adj d]. rewrite get_neighbors_spec, depth_first_search_spec.
  case_bool_decide; [|done]. cbn [result fst]. intros [= <-] Hn.
  destruct (dfs_loop_returns adj start) as [res Hres].
  destruct (dfs_loop_first adj start n res Hn Hres) as [rest ->].
  exists rest. by rewrite Hres.
Qed.

Lemma depth_first_search_first_neighbor_witness :
  exists rest,
    result (depth_first_search (NInt 1)
      (__init__ [(NInt 1, NInt 1); (NInt 1, NInt 2); (NInt 1, NInt 3)] false))
    = Returned (NInt 1 :: NInt 2 :: rest).
Proof.
  apply (depth_first_search_first_neighbor
           (__init__ [(NInt 1, NInt 1); (NInt 1, NInt 2); (NInt 1, NInt 3)] false)
           (NInt 1) (NInt 2) [NInt 1; NInt 2; NInt 3]);
    vm_compute; reflexivity.
Defined.

(** In a graph built through the constructor and the mutating methods,
    [breadth_first_search(start)] lists [start], then all neighbours of
    [start] in the order of its neighbour sequence (a self-loop aside), then
    the rest. *)
Theorem breadth_first_search_first_layer (d : bool) (g : Graph) (start : Node)
    (l : list Node) :
  reachable d g ->
  result (get_neighbors start g) = Returned l ->
  exists rest,
    result (breadth_first_search start g)
    = Returned (start :: filter (fun w => w <> start) l ++ rest).
Proof.
  intros Hr. destruct (reachable_inv _ _ Hr) as [_ [Hnd _] _].
  destruct g as [adj d']. cbn [adjacency_list] in Hnd.
  rewrite get_neighbors_spec, breadth_first_search_spec.
  case_bool_decide; [|done]. cbn [result fst]. intros [= <-].
  destruct (bfs_loop_returns adj start) as [res Hres]. rewrite Hres.
  revert Hres. unfold traversal_fuel. set (fuel := S (length _)).
  cbn [bfs_loop].
  rewrite (proj2 (list_in_false start [])) by apply not_elem_of_nil.
  cbn [negb app]. rewrite push_unvisited_filter. cbn [app].
  rewrite <- (app_nil_r (filter _ _)).
  assert (filter (fun w => w ∉ [start]) (adj_get adj start)
          = filter (fun w => w <> start) (adj_get adj start)) as ->.
  { apply list_filter_iff. intros w. rewrite list_elem_of_singleton. done. }
  intros (rest & ->)%bfs_loop_layer.
  - by exists rest.
  - apply NoDup_filter, Hnd.
  - intros n [Hn _]%list_elem_of_filter ->%list_elem_of_singleton. done.
Qed.

Lemma breadth_first_search_first_layer_witness :
  exists rest,
    result (breadth_first_search (NInt 1)
      (__init__ [(NInt 1, NInt 2); (NInt 2, NInt 4); (NInt 1, NInt 3)] false))
    = Returned (NInt 1 :: filter (fun w => w <> NInt 1) [NInt 2; NInt 3] ++ rest).
Proof.
  apply (breadth_first_search_first_layer false
           (__init__ [(NInt 1, NInt 2); (NInt 2, NInt 4); (NInt 1, NInt 3)] false)
           (NInt 1) [NInt 2; NInt 3]).
  - apply reachable_init.
  - vm_compute. reflexivity.
Defined.

(** In a graph built through the constructor and the mutating methods,
    [has_edge((a, b))] says whether [b] is in what [get_neighbors(a)]
    returns. *)
Theorem has_edge_get_neighbors (d : bool) (g : Graph) (a b : Node)
    (l : list Node) :
  reachable d g ->
  result (get_neighbors a g) = Returned l ->
  result (has_edge (a, b) g) = Returned (list_in b l).
Proof.
  intros Hr. destruct (reachable_inv _ _ Hr) as [_ Hok _].
  destruct g as [adj d']. cbn [adjacency_list] in Hok.
  rewrite get_neighbors_spec, has_edge_spec.
  case_bool_decide; [|done]. cbn [result fst]. intros [= <-]. f_equal.
  apply eq_true_iff_eq. rewrite (edge_present_closed _ _ _ Hok).
  by rewrite list_in_true.
Qed.

Lemma has_edge_get_neighbors_witness :
  result (has_edge (NInt 1, NInt 3)
    (__init__ [(NInt 1, NInt 2); (NInt 2, NInt 3)] true))
  = Returned (list_in (NInt 3) [NInt 2]).
Proof.
  apply (has_edge_get_neighbors true
           (__init__ [(NInt 1, NInt 2); (NInt 2, NInt 3)] true)
           (NInt 1) (NInt 3) [NInt 2]).
  - apply reachable_init.
  - vm_compute. reflexivity.
Defined.
